(** * naoqi_dcm_driver: the [Robot] control bridge of [src/robot.cpp]

    A shallow embedding of the class [Robot]: its members become the fields
    of a record, its methods become computations in a small monad that
    threads the object, records the calls made on the external collaborators
    (the [Motion], [DCM], [Memory] and [Diagnostics] wrappers, the ROS node,
    the hardware interfaces and the controller manager) and stops at the
    first fault (a null dereference, an access outside a vector, an
    exception nobody catches).

    The wrappers, ROS and the controller manager are not part of the file.
    Their calls are taken to return, and what they answer is an input of the
    method that asks: a method of the model takes, next to the arguments of
    the C++ method, the answers the outside gives during that call.  The
    two exceptions the file itself catches, from the controller manager and
    from the hardware interfaces, are such answers too.

    An iterator of a [std::vector] is its offset from [begin()]; reading or
    writing through an offset outside the vector is the fault [OutOfBounds].
    A fault ends the run of the model.  Past a null dereference or an
    access outside a vector the behaviour of the C++ is undefined, and
    nothing is said of what a compiled program does there.

    Numbers of type [double] and [float] are binary64 values of [PrimFloat];
    every [float] is a [double], so the widening the code performs when it
    copies sensor values is the identity. *)

From Stdlib Require Import ZArith Floats Lia Ascii String.
From stdpp Require Import gmap strings list.

Set Warnings "-inexact-float".
Local Open Scope string_scope.
Local Open Scope list_scope.

(** ** Data *)

(** [sensor_msgs::JointState], the fields the class touches, and
    [geometry_msgs::Twist]. *)
Module sensor_msgs.
Record JointState := {
  frame_id : string;
  name : list string;
  position : list float
}.
End sensor_msgs.

Module geometry_msgs.
Record Vector3 := { x : float; y : float; z : float }.
Record Twist := { linear : Vector3; angular : Vector3 }.
End geometry_msgs.

Abbreviation JointState := sensor_msgs.JointState.
Abbreviation Twist := geometry_msgs.Twist.

(** [hardware_interface::JointStateHandle]: a name and three pointers
    [&joint_angles_[i]], [&joint_velocities_[i]], [&joint_efforts_[i]], kept
    as the indices of the slots they point to. *)
Record JointStateHandle := {
  sh_name : string;
  sh_pos : nat;
  sh_vel : nat;
  sh_eff : nat
}.

(** [hardware_interface::JointHandle]: a state handle and [&joint_commands_[i]]. *)
Record JointHandle := {
  jh_state : JointStateHandle;
  jh_cmd : nat
}.

(** The members of [Robot].  A [boost::shared_ptr] (and the raw pointer
    [manager_]) is [true] when it points to an object.  An interface of
    [hardware_interface] is the [std::map] from names to handles it holds. *)
Record Robot := {
  is_connected_ : bool;
  nhPtr_ : bool;
  body_type_ : string;
  prefix_ : string;
  controller_freq_ : float;
  joint_precision_ : float;
  use_dcm_ : bool;
  use_cmd_vel_ : bool;
  motor_groups_ : list string;
  dcm_ : bool;
  memory_ : bool;
  motion_ : bool;
  diagnostics_ : bool;
  manager_ : bool;
  stiffness_ : float;
  joint_states_topic_ : JointState;
  joint_angles_ : list float;
  joint_velocities_ : list float;
  joint_efforts_ : list float;
  joint_commands_ : list float;
  jnt_state_interface_ : gmap string JointStateHandle;
  jnt_pos_interface_ : gmap string JointHandle
}.

(** Field assignment.  [rebuild] spells the record out once; [setter f]
    abstracts the projection [f] in it, so that [set_f v r] is [r] with the
    field [f] replaced by [v] and every other field read from [r]. *)
Definition rebuild (r : Robot) : Robot :=
  {| is_connected_ := is_connected_ r; nhPtr_ := nhPtr_ r; body_type_ := body_type_ r;
     prefix_ := prefix_ r; controller_freq_ := controller_freq_ r;
     joint_precision_ := joint_precision_ r; use_dcm_ := use_dcm_ r;
     use_cmd_vel_ := use_cmd_vel_ r; motor_groups_ := motor_groups_ r; dcm_ := dcm_ r;
     memory_ := memory_ r; motion_ := motion_ r; diagnostics_ := diagnostics_ r;
     manager_ := manager_ r; stiffness_ := stiffness_ r;
     joint_states_topic_ := joint_states_topic_ r; joint_angles_ := joint_angles_ r;
     joint_velocities_ := joint_velocities_ r; joint_efforts_ := joint_efforts_ r;
     joint_commands_ := joint_commands_ r; jnt_state_interface_ := jnt_state_interface_ r;
     jnt_pos_interface_ := jnt_pos_interface_ r |}.

Ltac setter proj :=
  let body := eval cbv [rebuild] in rebuild in
  match eval pattern proj in body with
  | ?F _ => exact (fun v r => F (fun _ => v) r)
  end.

Definition set_is_connected_ : bool -> Robot -> Robot :=
  Eval cbv beta in ltac:(setter is_connected_).
Definition set_body_type_ : string -> Robot -> Robot :=
  Eval cbv beta in ltac:(setter body_type_).
Definition set_prefix_ : string -> Robot -> Robot :=
  Eval cbv beta in ltac:(setter prefix_).
Definition set_controller_freq_ : float -> Robot -> Robot :=
  Eval cbv beta in ltac:(setter controller_freq_).
Definition set_joint_precision_ : float -> Robot -> Robot :=
  Eval cbv beta in ltac:(setter joint_precision_).
Definition set_use_dcm_ : bool -> Robot -> Robot :=
  Eval cbv beta in ltac:(setter use_dcm_).
Definition set_motor_groups_ : list string -> Robot -> Robot :=
  Eval cbv beta in ltac:(setter motor_groups_).
Definition set_dcm_ : bool -> Robot -> Robot :=
  Eval cbv beta in ltac:(setter dcm_).
Definition set_memory_ : bool -> Robot -> Robot :=
  Eval cbv beta in ltac:(setter memory_).
Definition set_motion_ : bool -> Robot -> Robot :=
  Eval cbv beta in ltac:(setter motion_).
Definition set_diagnostics_ : bool -> Robot -> Robot :=
  Eval cbv beta in ltac:(setter diagnostics_).
Definition set_manager_ : bool -> Robot -> Robot :=
  Eval cbv beta in ltac:(setter manager_).
Definition set_stiffness_ : float -> Robot -> Robot :=
  Eval cbv beta in ltac:(setter stiffness_).
Definition set_joint_states_topic_ : JointState -> Robot -> Robot :=
  Eval cbv beta in ltac:(setter joint_states_topic_).
Definition set_joint_angles_ : list float -> Robot -> Robot :=
  Eval cbv beta in ltac:(setter joint_angles_).
Definition set_joint_velocities_ : list float -> Robot -> Robot :=
  Eval cbv beta in ltac:(setter joint_velocities_).
Definition set_joint_efforts_ : list float -> Robot -> Robot :=
  Eval cbv beta in ltac:(setter joint_efforts_).
Definition set_joint_commands_ : list float -> Robot -> Robot :=
  Eval cbv beta in ltac:(setter joint_commands_).
Definition set_jnt_state_interface_ : gmap string JointStateHandle -> Robot -> Robot :=
  Eval cbv beta in ltac:(setter jnt_state_interface_).
Definition set_jnt_pos_interface_ : gmap string JointHandle -> Robot -> Robot :=
  Eval cbv beta in ltac:(setter jnt_pos_interface_).

(** ** Calls on the collaborators *)

Inductive Interface := StateInterface | PositionInterface.

(** One constructor per call the class makes on something outside it, with
    the arguments it passes. *)
Inductive Event :=
| MotionSetStiffnessArms (stiffness time : float)
| MotionRest
| MotionStiffnessInterpolation (groups : list string) (stiffness time : float)
| MotionWakeUp
| MotionRobotIsWakeUp
| MotionManageConcurrence
| MotionGetBodyNamesFromGroup (groups : list string)
| MotionInit (joints : list string)
| MotionGetBodyNames (group : string)
| MotionMoveTo (x y theta : float)
| MotionGetAngles (group : string)
| MotionWriteJoints (commands : list float)
| DcmInit (joints : list string)
| DcmWriteJoints (commands : list float)
| MemoryGetData (key : string)
| MemoryInit (joints : list string)
| MemoryGetListData
| DiagnosticsPublish
| ManagerUpdate
| PublishStiffness (data : float)
| PublishJointStates (topic : JointState)
| Subscribe (topic : string)
| Advertise (topic : string)
| RegisterStateHandle (handle : JointStateHandle)
| RegisterPositionHandle (handle : JointHandle)
| RegisterInterface (which : Interface)
| NodeHandleShutdown
| RosShutdown
| Sleep (seconds : Z)
| RateSleep
| RosInfo (msg : string)
| RosWarn (msg : string)
| RosError (msg : string).

(** What stops a method short of its end. *)
Inductive Fault :=
| NullDereference
| OutOfBounds
| UncaughtException.

(** ** The monad of methods *)

Inductive Outcome (A : Type) :=
| Done (a : A) (r : Robot) (t : list Event)
| Crash (f : Fault) (r : Robot) (t : list Event).
Arguments Done {A} a r t.
Arguments Crash {A} f r t.

Definition M (A : Type) : Type := Robot -> Outcome A.

Definition ret {A} (a : A) : M A := fun r => Done a r [].

Definition bind {A B} (m : M A) (k : A -> M B) : M B := fun r =>
  match m r with
  | Done a r1 t1 =>
      match k a r1 with
      | Done b r2 t2 => Done b r2 (t1 ++ t2)
      | Crash f r2 t2 => Crash f r2 (t1 ++ t2)
      end
  | Crash f r1 t1 => Crash f r1 t1
  end.

Declare Scope method_scope.
Delimit Scope method_scope with method.
Notation "x <- m ;; k" := (bind m (fun x => k))
  (at level 100, m at next level, right associativity) : method_scope.
Notation "m ;; k" := (bind m (fun _ => k))
  (at level 100, right associativity) : method_scope.
Local Open Scope method_scope.

Definition this : M Robot := fun r => Done r r [].
Definition assign (f : Robot -> Robot) : M unit := fun r => Done tt (f r) [].
Definition call (e : Event) : M unit := fun r => Done tt r [e].
Definition fault {A} (f : Fault) : M A := fun r => Crash f r [].
Definition when (b : bool) (m : M unit) : M unit := if b then m else ret tt.

(** [p->method(...)]: a call through the pointer member [p]. *)
Definition via (p : Robot -> bool) (e : Event) : M unit := fun r =>
  if p r then Done tt r [e] else Crash NullDereference r [].

Definition trace {A} (o : Outcome A) : list Event :=
  match o with Done _ _ t => t | Crash _ _ t => t end.

Definition final {A} (o : Outcome A) : Robot :=
  match o with Done _ r _ => r | Crash _ r _ => r end.

(** ** The methods, in the order of [robot.cpp] *)

(** [Robot::Robot].  [std_msgs::Float32] and the vectors start zeroed and
    empty; no wrapper exists yet; the node handle is allocated. *)
Definition Robot_new : Robot :=
  {| is_connected_ := false; nhPtr_ := true; body_type_ := ""; prefix_ := "naoqi_dcm";
     controller_freq_ := 15; joint_precision_ := 0.1; use_dcm_ := false;
     use_cmd_vel_ := false; motor_groups_ := []; dcm_ := false; memory_ := false;
     motion_ := false; diagnostics_ := false; manager_ := false; stiffness_ := 0;
     joint_states_topic_ :=
       {| sensor_msgs.frame_id := ""; sensor_msgs.name := []; sensor_msgs.position := [] |};
     joint_angles_ := []; joint_velocities_ := []; joint_efforts_ := [];
     joint_commands_ := []; jnt_state_interface_ := ∅; jnt_pos_interface_ := ∅ |}.

(** [Robot::setStiffness] (defined last in the file, used from the start).
    [interpolation_ok] is what [Motion::stiffnessInterpolation] answers. *)
Definition setStiffness (interpolation_ok : bool) (stiffness : float) : M bool :=
  assign (set_stiffness_ stiffness);;
  r <- this;;
  via motion_ (MotionStiffnessInterpolation (motor_groups_ r) stiffness 1);;
  if negb interpolation_ok then ret false else ret true.

(** [Robot::stopService]. *)
Definition stopService (interpolation_ok : bool) : M unit :=
  r <- this;;
  call (RosInfo "naoqi_dcm_driver stopping the service...");;
  when (motion_ r)
    (when (use_dcm_ r) (via motion_ (MotionSetStiffnessArms 0 1));;
     when (bool_decide (length (motor_groups_ r) = 1))
       (when (bool_decide (motor_groups_ r !! 0 = Some "Body")) (via motion_ MotionRest));;
     _ <- setStiffness interpolation_ok 0;;
     ret tt);;
  assign (set_is_connected_ false);;
  when (nhPtr_ r) (via nhPtr_ NodeHandleShutdown;; call RosShutdown).

(** [Robot::~Robot]. *)
Definition Robot_delete (interpolation_ok : bool) : M unit :=
  stopService interpolation_ok.

(** [std::vector<double>::resize]: keep a prefix, pad with zeros. *)
Definition resize (n : nat) (v : list float) : list float :=
  take n v ++ replicate (n - length v) 0%float.

(** [int joints_nbr = joints_names.size()]: the size, wrapped to 32 bits. *)
Definition int_of_size (n : nat) : Z :=
  (Z.of_nat n + 2 ^ 31) mod 2 ^ 32 - 2 ^ 31.

(** The calls on [hardware_interface] inside the [try] of
    [initializeControllers]: for each joint the construction of its state
    handle, [registerHandle] on the state interface, [getHandle], the
    construction of its position handle and [registerHandle] on the position
    interface; after the loop the two calls of [registerInterface]. *)
Inductive HandleCall :=
| NewStateHandle
| RegisterState
| GetHandle
| NewPositionHandle
| RegisterPosition.

(** The call that raises a [ros::Exception], when one of them does: a call
    for the joint at index [i], or the registration of an interface. *)
Inductive Raise :=
| RaiseAtJoint (i : nat) (c : HandleCall)
| RaiseAtInterface (which : Interface).

#[global] Instance Interface_eq_dec : EqDecision Interface.
Proof. solve_decision. Defined.

#[global] Instance HandleCall_eq_dec : EqDecision HandleCall.
Proof. solve_decision. Defined.

#[global] Instance Raise_eq_dec : EqDecision Raise.
Proof. solve_decision. Defined.

(** The [for] loop of [initializeControllers], [n] iterations from index
    [i].  It returns [false] when a call of [hardware_interface] raises a
    [ros::Exception]; [hw_fail] names that call.  A call that raises has no
    effect and is not recorded.  [std::vector::at] and a [getHandle] that
    does not find the name raise other exceptions, which the [catch] does
    not stop.  [registerHandle] stores the handle under its name, in place
    of an earlier one of that name; the call is recorded as well, with the
    handle it is given. *)
Fixpoint register_handles (hw_fail : option Raise) (joints_names : list string)
    (n i : nat) : M bool :=
  match n with
  | O => ret true
  | S n' =>
      match joints_names !! i with
      | None => fault UncaughtException
      | Some nm =>
          if bool_decide (hw_fail = Some (RaiseAtJoint i NewStateHandle)) then ret false
          else
            let state_handle := {| sh_name := nm; sh_pos := i; sh_vel := i; sh_eff := i |} in
            if bool_decide (hw_fail = Some (RaiseAtJoint i RegisterState)) then ret false
            else
              call (RegisterStateHandle state_handle);;
              assign (fun r =>
                set_jnt_state_interface_ (<[nm := state_handle]> (jnt_state_interface_ r)) r);;
              if bool_decide (hw_fail = Some (RaiseAtJoint i GetHandle)) then ret false
              else
                r <- this;;
                match jnt_state_interface_ r !! nm with
                | None => fault UncaughtException
                | Some h =>
                    if bool_decide (hw_fail = Some (RaiseAtJoint i NewPositionHandle))
                    then ret false
                    else
                      let pos_handle := {| jh_state := h; jh_cmd := i |} in
                      if bool_decide (hw_fail = Some (RaiseAtJoint i RegisterPosition))
                      then ret false
                      else
                        call (RegisterPositionHandle pos_handle);;
                        assign (fun r =>
                          set_jnt_pos_interface_
                            (<[nm := pos_handle]> (jnt_pos_interface_ r)) r);;
                        register_handles hw_fail joints_names n' (S i)
                end
      end
  end.

(** [Robot::initializeControllers].  A negative [joints_nbr] becomes a huge
    [size_t], which [reserve] refuses with [std::length_error].  The two
    calls of [registerInterface] stand inside the [try] as well. *)
Definition initializeControllers (hw_fail : option Raise) (joints_names : list string)
    : M bool :=
  let joints_nbr := int_of_size (length joints_names) in
  if (joints_nbr <? 0)%Z then fault UncaughtException
  else
    let n := Z.to_nat joints_nbr in
    let caught :=
      call (RosError "Could not initialize hardware interfaces!");;
      ret false in
    assign (fun r => set_joint_angles_ (resize n (joint_angles_ r)) r);;
    assign (fun r => set_joint_velocities_ (resize n (joint_velocities_ r)) r);;
    assign (fun r => set_joint_efforts_ (resize n (joint_efforts_ r)) r);;
    assign (fun r => set_joint_commands_ (resize n (joint_commands_ r)) r);;
    ok <- register_handles hw_fail joints_names n 0;;
    if ok then
      if bool_decide (hw_fail = Some (RaiseAtInterface StateInterface)) then caught
      else
        call (RegisterInterface StateInterface);;
        if bool_decide (hw_fail = Some (RaiseAtInterface PositionInterface)) then caught
        else
          call (RegisterInterface PositionInterface);;
          ret true
    else caught.

(** [std::string::find(pattern)], with [None] for [npos]. *)
Definition find (pattern s : string) : option nat := String.index 0 pattern s.

(** The condition of the [if] in [ignoreMimicJoints]; [&&] binds tighter
    than [||]. *)
Definition is_mimic (body_type joint : string) : bool :=
  negb (bool_decide (find "Wheel" joint = None))
  || ((String.eqb joint "RHand" || String.eqb joint "LHand"
       || String.eqb joint "RWristYaw" || String.eqb joint "LWristYaw")
      && String.eqb body_type "H21").

(** The loop of [ignoreMimicJoints].  The iterator [it] is the offset of
    its pointer from [joints->begin()], an integer: after erasing the first
    element, [it--] moves it one before the start and [++it] brings it back.
    [erase] shifts the tail left in place, so the offset stays meaningful.
    [None] when the fuel runs out or [*it] falls outside the vector. *)
Fixpoint ignoreMimicJoints_loop (fuel : nat) (body_type : string)
    (joints : list string) (it : Z) : option (list string) :=
  match fuel with
  | O => None
  | S fuel' =>
      if bool_decide (it = Z.of_nat (length joints)) then Some joints
      else if bool_decide (0 <= it < Z.of_nat (length joints))%Z then
        match joints !! Z.to_nat it with
        | None => None
        | Some joint =>
            if is_mimic body_type joint then
              let joints := delete (Z.to_nat it) joints in
              let it := (it - 1)%Z in
              ignoreMimicJoints_loop fuel' body_type joints (it + 1)%Z
            else
              ignoreMimicJoints_loop fuel' body_type joints (it + 1)%Z
        end
      else None
  end.

(** [Robot::ignoreMimicJoints], on the vector it is given a pointer to.
    Every iteration erases an element or advances, so one more iteration
    than there are elements is all the loop can take. *)
Definition ignoreMimicJoints (body_type : string) (joints : list string)
    : option (list string) :=
  ignoreMimicJoints_loop (S (length joints)) body_type joints 0.

(** The parameters [loadParams] reads from the server; a parameter that is
    not set leaves its member as it was.  ([TopicQueue],
    [HighCommunicationFrequency] and [OdomFrame] set members no modelled
    method reads.) *)
Record Params := {
  BodyType : option string;
  ControllerFrequency : option float;
  JointPrecision : option float;
  param_use_dcm : option bool;
  Prefix : option string;
  param_motor_groups : option string
}.

Definition getParam {T} (value : option T) (set : T -> Robot -> Robot) : M unit :=
  match value with
  | Some v => assign (set v)
  | None => ret tt
  end.

(** [boost::split(_, s, boost::is_any_of(" "))]: cut at every space, empty
    pieces kept. *)
Fixpoint split_spaces (s : string) : list string :=
  match s with
  | EmptyString => [""]
  | String c s' =>
      if Ascii.eqb c " "%char then "" :: split_spaces s'
      else match split_spaces s' with
           | piece :: pieces => String c piece :: pieces
           | [] => [String c ""]
           end
  end.

Definition ends_with_slash (s : string) : bool :=
  match String.get (String.length s - 1) s with
  | Some c => Ascii.eqb c "/"%char
  | None => false
  end.

(** [Robot::loadParams]. *)
Definition loadParams (p : Params) : M unit :=
  getParam (BodyType p) set_body_type_;;
  getParam (ControllerFrequency p) set_controller_freq_;;
  getParam (JointPrecision p) set_joint_precision_;;
  getParam (param_use_dcm p) set_use_dcm_;;
  r <- this;;
  when (use_dcm_ r)
    (call (RosWarn "Please, be carefull! You have chosen to control the robot based on DCM."));;
  getParam (Prefix p) set_prefix_;;
  r <- this;;
  when (bool_decide (0 < String.length (prefix_ r)))
    (when (negb (ends_with_slash (prefix_ r)))
       (assign (set_prefix_ (prefix_ r ++ "/"))));;
  let tmp := default "" (param_motor_groups p) in
  assign (set_motor_groups_ (split_spaces tmp));;
  r <- this;;
  when (bool_decide (length (motor_groups_ r) = 1))
    (when (bool_decide (motor_groups_ r !! 0 = Some ""))
       (assign (set_motor_groups_ [])));;
  r <- this;;
  when (bool_decide (length (motor_groups_ r) = 0))
    (assign (set_motor_groups_ ["LArm"; "RArm"])).

(** [Robot::subscribe]. *)
Definition subscribe : M unit :=
  r <- this;;
  when (use_cmd_vel_ r) (via nhPtr_ (Subscribe (prefix_ r ++ "cmd_vel")));;
  via nhPtr_ (Advertise (prefix_ r ++ "diagnostics"));;
  via nhPtr_ (Advertise (prefix_ r ++ "stiffnesses"));;
  assign (set_stiffness_ 1);;
  via nhPtr_ (Advertise "/joint_states").

(** What the outside answers during one call of [connect]. *)
Record ConnectAnswers := {
  params : Params;
  robot_is_wake_up : bool;
  body_names_from_group : list string;
  body_names : list string;
  stop_interpolation_ok : bool;
  stiffness_interpolation_ok : bool;
  manager_throws : bool;
  hw_fail : option Raise
}.

(** [Robot::connect]. *)
Definition connect (a : ConnectAnswers) : M bool :=
  assign (set_is_connected_ false);;
  loadParams (params a);;
  r <- this;;
  when (use_dcm_ r) (assign (set_dcm_ true));;
  assign (set_memory_ true);;
  via memory_ (MemoryGetData "RobotConfig/Body/Type");;
  assign (set_motion_ true);;
  (if bool_decide (length (motor_groups_ r) = 1) then
     when (bool_decide (motor_groups_ r !! 0 = Some "Body")) (via motion_ MotionWakeUp)
   else
     when (negb (use_dcm_ r)) (via motion_ MotionWakeUp));;
  via motion_ MotionRobotIsWakeUp;;
  if negb (robot_is_wake_up a) then
    call (RosError "Please, wakeUp the robot to be able to set stiffness");;
    stopService (stop_interpolation_ok a);;
    ret false
  else
    when (use_dcm_ r) (via motion_ MotionManageConcurrence);;
    via motion_ (MotionGetBodyNamesFromGroup (motor_groups_ r));;
    match ignoreMimicJoints (body_type_ r) (body_names_from_group a) with
    | None => fault OutOfBounds
    | Some joints_names =>
        call (RosInfo "The following joints are controlled: ...");;
        via memory_ (MemoryInit joints_names);;
        via motion_ (MotionInit joints_names);;
        when (use_dcm_ r) (via dcm_ (DcmInit joints_names));;
        via motion_ (MotionGetBodyNames "Body");;
        assign (fun r => set_joint_states_topic_
          {| sensor_msgs.frame_id := "base_link";
             sensor_msgs.name := body_names a;
             sensor_msgs.position :=
               resize (length (body_names a))
                      (sensor_msgs.position (joint_states_topic_ r)) |} r);;
        via motion_ (MotionGetBodyNames "JointActuators");;
        assign (set_diagnostics_ true);;
        assign (set_is_connected_ true);;
        subscribe;;
        ok <- setStiffness (stiffness_interpolation_ok a) 1;;
        if negb ok then ret false
        else if manager_throws a then
          call (RosError "Could not initialize controller manager!");;
          ret false
        else
          assign (set_manager_ true);;
          ok <- initializeControllers (hw_fail a) joints_names;;
          if negb ok then ret false
          else
            call (RosInfo "naoqi_dcm_driver module initialized!");;
            ret true
    end.

(** [Robot::isConnected]. *)
Definition isConnected : M bool :=
  r <- this;;
  ret (is_connected_ r).

(** [Robot::commandVelocity]. *)
Definition commandVelocity (msg : Twist) : M unit :=
  r <- this;;
  when (use_dcm_ r) (via motion_ (MotionSetStiffnessArms 0 1));;
  via motion_ (MotionMoveTo (geometry_msgs.x (geometry_msgs.linear msg))
                            (geometry_msgs.y (geometry_msgs.linear msg))
                            (geometry_msgs.z (geometry_msgs.angular msg)));;
  call (Sleep 1);;
  when (use_dcm_ r) (via motion_ (MotionSetStiffnessArms 1 1)).

(** The loop of [readJoints]: [n] iterations left, the three iterators at
    offset [i].  The loop runs while [it_command] is before the end of
    [joint_commands_]; it tests neither [it_now] nor [it_sensor], so reading
    [*it_sensor] or writing [*it_now] past the end is an [OutOfBounds]. *)
Fixpoint readJoints_loop (joint_positions : list float) (n i : nat) : M unit :=
  match n with
  | O => ret tt
  | S n' =>
      match joint_positions !! i with
      | None => fault OutOfBounds
      | Some sensor =>
          r <- this;;
          if bool_decide (i < length (joint_angles_ r)) then
            assign (fun r => set_joint_angles_ (<[i := sensor]> (joint_angles_ r)) r);;
            assign (fun r => set_joint_commands_ (<[i := sensor]> (joint_commands_ r)) r);;
            readJoints_loop joint_positions n' (S i)
          else fault OutOfBounds
      end
  end.

(** [Robot::readJoints]; [joint_positions] is what [Memory::getListData]
    answers. *)
Definition readJoints (joint_positions : list float) : M unit :=
  via memory_ MemoryGetListData;;
  r <- this;;
  readJoints_loop joint_positions (length (joint_commands_ r)) 0.

(** The loop of [publishJointStateFromAlMotion]:
    [joint_states_topic_.position[i] = position_data[i]]. *)
Fixpoint copy_positions (position_data : list float) (i : nat) : M unit :=
  match position_data with
  | [] => ret tt
  | value :: position_data' =>
      r <- this;;
      let topic := joint_states_topic_ r in
      if bool_decide (i < length (sensor_msgs.position topic)) then
        assign (set_joint_states_topic_
          {| sensor_msgs.frame_id := sensor_msgs.frame_id topic;
             sensor_msgs.name := sensor_msgs.name topic;
             sensor_msgs.position := <[i := value]> (sensor_msgs.position topic) |});;
        copy_positions position_data' (S i)
      else fault OutOfBounds
  end.

(** [Robot::publishJointStateFromAlMotion]; [position_data] is what
    [Motion::getAngles("Body")] answers. *)
Definition publishJointStateFromAlMotion (position_data : list float) : M unit :=
  via motion_ (MotionGetAngles "Body");;
  copy_positions position_data 0;;
  r <- this;;
  call (PublishJointStates (joint_states_topic_ r)).

(** [diff > joint_precision_] with [diff = fabs(command - now)]. *)
Definition exceeds (joint_precision command now : float) : bool :=
  let diff := PrimFloat.abs (PrimFloat.sub command now) in
  PrimFloat.ltb joint_precision diff.

(** The first loop of [writeJoints]: the value of [changed] when it ends,
    [None] when [it_now] is read past the end of [joint_angles_]. *)
Fixpoint detect_change (joint_precision : float) (it_command it_now : list float)
    : option bool :=
  match it_command with
  | [] => Some false
  | command :: it_command' =>
      match it_now with
      | [] => None
      | now :: it_now' =>
          if exceeds joint_precision command now then Some true
          else detect_change joint_precision it_command' it_now'
      end
  end.

(** [Robot::writeJoints]. *)
Definition writeJoints : M unit :=
  r <- this;;
  match detect_change (joint_precision_ r) (joint_commands_ r) (joint_angles_ r) with
  | None => fault OutOfBounds
  | Some changed =>
      if negb changed then ret tt
      else if use_dcm_ r then via dcm_ (DcmWriteJoints (joint_commands_ r))
      else via motion_ (MotionWriteJoints (joint_commands_ r))
  end.

(** What [manager_->update] does to the object: it raises a
    [ros::Exception], or its controllers write commands through the position
    handles they hold, each named by its joint. *)
Inductive UpdateAnswer :=
| UpdateThrows (what : string)
| UpdateWrites (writes : list (string * float)).

(** A write through the handle registered for [joint]: it lands in the slot
    of [joint_commands_] the handle points to.  A controller cannot hold a
    handle that was never registered. *)
Definition write_command (joint : string) (value : float) : M unit :=
  r <- this;;
  match jnt_pos_interface_ r !! joint with
  | None => ret tt
  | Some h =>
      if bool_decide (jh_cmd h < length (joint_commands_ r)) then
        assign (set_joint_commands_ (<[jh_cmd h := value]> (joint_commands_ r)))
      else fault OutOfBounds
  end.

Fixpoint write_commands (writes : list (string * float)) : M unit :=
  match writes with
  | [] => ret tt
  | (joint, value) :: writes' =>
      write_command joint value;;
      write_commands writes'
  end.

(** What the outside answers during one iteration of the control loop. *)
Record Cycle := {
  ros_ok : bool;
  joint_positions : list float;
  diagnostics_ok : bool;
  stop_ok : bool;
  update : UpdateAnswer;
  position_data : list float
}.

(** How a run of the loop over the given cycles ends: it left the [while]
    (at its condition or at the [break]), it returned from the [catch], or
    it is still iterating when the cycles are used up. *)
Inductive LoopExit := LoopEnded | LoopReturned | LoopRunning.

(** [Robot::controllerLoop]. *)
Fixpoint controllerLoop (cycles : list Cycle) : M LoopExit :=
  match cycles with
  | [] => ret LoopRunning
  | c :: cycles' =>
      if negb (ros_ok c) then
        call (RosInfo "Shutting down the main loop");;
        ret LoopEnded
      else
        r <- this;;
        if negb (is_connected_ r) then
          call (RosInfo "Shutting down the main loop");;
          ret LoopEnded
        else
          call (PublishStiffness (stiffness_ r));;
          readJoints (joint_positions c);;
          via diagnostics_ DiagnosticsPublish;;
          when (negb (diagnostics_ok c)) (stopService (stop_ok c));;
          via manager_ ManagerUpdate;;
          match update c with
          | UpdateThrows what =>
              call (RosError what);;
              ret LoopReturned
          | UpdateWrites writes =>
              write_commands writes;;
              writeJoints;;
              publishJointStateFromAlMotion (position_data c);;
              call RateSleep;;
              controllerLoop cycles'
          end
  end.

(** [Robot::run]. *)
Definition run (cycles : list Cycle) : M LoopExit :=
  controllerLoop cycles.

(** ** Reading the record of calls *)

(** The calls that reach the robot: those on the [Motion], [DCM] and
    [Memory] wrappers. *)
Definition backend_io (e : Event) : bool :=
  match e with
  | MotionSetStiffnessArms _ _ | MotionRest | MotionStiffnessInterpolation _ _ _
  | MotionWakeUp | MotionRobotIsWakeUp | MotionManageConcurrence
  | MotionGetBodyNamesFromGroup _ | MotionInit _ | MotionGetBodyNames _
  | MotionMoveTo _ _ _ | MotionGetAngles _ | MotionWriteJoints _
  | DcmInit _ | DcmWriteJoints _
  | MemoryGetData _ | MemoryInit _ | MemoryGetListData => true
  | _ => false
  end.

(** The arm-stiffness and motion operations among them. *)
Definition arm_or_move (e : Event) : bool :=
  match e with
  | MotionSetStiffnessArms _ _ | MotionMoveTo _ _ _ => true
  | _ => false
  end.

(** The write of the command vector on the path the flag selects. *)
Definition backend_write (r : Robot) : Event :=
  if use_dcm_ r then DcmWriteJoints (joint_commands_ r)
  else MotionWriteJoints (joint_commands_ r).

(** The wrapper that write goes through exists. *)
Definition write_path_ready (r : Robot) : bool :=
  if use_dcm_ r then dcm_ r else motion_ r.

(** Some joint's command is further than [joint_precision_] from its
    measured angle: |command - now| > joint_precision_, in the arithmetic
    and the order of binary64. *)
Definition some_joint_changed (r : Robot) : Prop :=
  ∃ (i : nat) (command now : float),
    joint_commands_ r !! i = Some command ∧
    joint_angles_ r !! i = Some now ∧
    (joint_precision_ r <? PrimFloat.abs (command - now))%float = true.

(** ** The filter as the specification words it

    A name is left out when it contains "Wheel" or, on the body type H21,
    when it is one of the four hand and wrist names. *)
Definition contains (pattern s : string) : Prop :=
  ∃ before after : string, s = (before ++ pattern ++ after)%string.

Definition excluded (body_type joint : string) : Prop :=
  contains "Wheel" joint
  ∨ (body_type = "H21" ∧ joint ∈ ["RHand"; "LHand"; "RWristYaw"; "LWristYaw"]).

(** ** What the methods leave behind

    [overwrite values n i v] is [v] after [v[k] = values[k]] for the [n]
    indices from [i] on, as the loop of [readJoints] does it. *)
Fixpoint overwrite (values : list float) (n i : nat) (v : list float) : list float :=
  match n with
  | O => v
  | S n' =>
      match values !! i with
      | Some value => overwrite values n' (S i) (<[i := value]> v)
      | None => v
      end
  end.

(** The calls of [stopService], in order. *)
Definition stop_calls (r : Robot) : list Event :=
  [RosInfo "naoqi_dcm_driver stopping the service..."]
  ++ (if motion_ r then
        (if use_dcm_ r then [MotionSetStiffnessArms 0 1] else [])
        ++ (if bool_decide (motor_groups_ r = ["Body"]) then [MotionRest] else [])
        ++ [MotionStiffnessInterpolation (motor_groups_ r) 0 1]
      else [])
  ++ (if nhPtr_ r then [NodeHandleShutdown; RosShutdown] else []).

(** The object [stopService] leaves. *)
Definition stopped (r : Robot) : Robot :=
  set_is_connected_ false (if motion_ r then set_stiffness_ 0 r else r).

(** Every position handle points into [joint_commands_]. *)
Definition handles_in_range (r : Robot) : Prop :=
  map_Forall (λ _ h, jh_cmd h < length (joint_commands_ r)) (jnt_pos_interface_ r).

(** The state a cycle needs: the wrappers and the manager exist, the buffers
    are aligned, the handles point into them. *)
Definition ready (r : Robot) : Prop :=
  memory_ r = true ∧ motion_ r = true ∧ diagnostics_ r = true ∧ manager_ r = true
  ∧ write_path_ready r = true
  ∧ length (joint_angles_ r) = length (joint_commands_ r)
  ∧ handles_in_range r.

(** The backend answers with as many values as the object holds slots. *)
Definition answers_fit (r : Robot) (c : Cycle) : Prop :=
  length (joint_positions c) = length (joint_commands_ r)
  ∧ length (position_data c) <= length (sensor_msgs.position (joint_states_topic_ r)).

(** The objects a program can hold: a new one, and what the constructor's
    result becomes under the methods callers reach ([connect], [stopService]
    and [isConnected] are registered with the session, [run] is public, and
    [commandVelocity] is the subscriber callback), whatever the outside
    answers.  A run that faults leaves no object to go on with. *)
Inductive reachable : Robot -> Prop :=
| reachable_new : reachable Robot_new
| reachable_connect a r b r' t :
    reachable r -> connect a r = Done b r' t -> reachable r'
| reachable_stopService ok r r' t :
    reachable r -> stopService ok r = Done tt r' t -> reachable r'
| reachable_run cycles r e r' t :
    reachable r -> run cycles r = Done e r' t -> reachable r'
| reachable_commandVelocity msg r r' t :
    reachable r -> commandVelocity msg r = Done tt r' t -> reachable r'.

(** As long as no motion wrapper exists, the published stiffness is the
    zero it was constructed with. *)
Definition limp_without_motion (r : Robot) : Prop :=
  motion_ r = false -> stiffness_ r = 0%float.

Definition has_motion (r : Robot) : Prop := motion_ r = true.

(** The object [readJoints] leaves when the answer fits. *)
Definition after_read (values : list float) (r : Robot) : Robot :=
  set_joint_commands_ values (set_joint_angles_ values r).

(** ** Alignment of the buffers with the joint names

    The handles that bind a name to slot [i] of the four buffers. *)
Definition state_handle_of (joint : string) (i : nat) : JointStateHandle :=
  {| sh_name := joint; sh_pos := i; sh_vel := i; sh_eff := i |}.

Definition position_handle_of (joint : string) (i : nat) : JointHandle :=
  {| jh_state := state_handle_of joint i; jh_cmd := i |}.

(** Registering the names in order, the first of them at index [i]: the
    calls this makes, and the interface it leaves. *)
Fixpoint registrations (names : list string) (i : nat) : list Event :=
  match names with
  | [] => []
  | joint :: names' =>
      RegisterStateHandle (state_handle_of joint i)
      :: RegisterPositionHandle (position_handle_of joint i)
      :: registrations names' (S i)
  end.

Fixpoint registered {H} (handle_of : string -> nat -> H) (names : list string) (i : nat)
    (interface : gmap string H) : gmap string H :=
  match names with
  | [] => interface
  | joint :: names' =>
      registered handle_of names' (S i) (<[joint := handle_of joint i]> interface)
  end.

(** Whether the state handle of a joint is in the interface when call [c]
    for that joint raises: it is once its [registerHandle] has returned. *)
Definition state_registered_before (c : HandleCall) : bool :=
  match c with
  | NewStateHandle | RegisterState => false
  | GetHandle | NewPositionHandle | RegisterPosition => true
  end.

(** The object [initializeControllers] leaves when nothing raises: the four
    buffers resized to the number of names, every name registered. *)
Definition initialized (joints_names : list string) (r : Robot) : Robot :=
  let n := length joints_names in
  set_jnt_pos_interface_
    (registered position_handle_of joints_names 0 (jnt_pos_interface_ r))
    (set_jnt_state_interface_
       (registered state_handle_of joints_names 0 (jnt_state_interface_ r))
       (set_joint_commands_ (resize n (joint_commands_ r))
          (set_joint_efforts_ (resize n (joint_efforts_ r))
             (set_joint_velocities_ (resize n (joint_velocities_ r))
                (set_joint_angles_ (resize n (joint_angles_ r)) r))))).

(** ** Assertions on runs *)

(** [triple P m Q]: a run of [m] that starts where [P] holds and completes,
    completes where [Q] holds.  [preserves I m] is the case of an invariant. *)
Definition triple {A} (P : Robot -> Prop) (m : M A) (Q : A -> Robot -> Prop) : Prop :=
  ∀ r a r' t, P r -> m r = Done a r' t -> Q a r'.

Definition preserves {A} (I : Robot -> Prop) (m : M A) : Prop :=
  triple I m (λ _, I).

(** A method that completes from every state. *)
Definition total {A} (m : M A) : Prop := ∀ r, ∃ a r' t, m r = Done a r' t.

(** A method that, started where [I] holds, completes where [I] holds. *)
Definition safe {A} (I : Robot -> Prop) (m : M A) : Prop :=
  ∀ r, I r -> ∃ a r' t, m r = Done a r' t ∧ I r'.

(** A ready object with [n] joints and [m] published positions, and a
    cycle whose answers have those sizes. *)
Definition shaped (n m : nat) (r : Robot) : Prop :=
  ready r
  ∧ length (joint_commands_ r) = n
  ∧ length (sensor_msgs.position (joint_states_topic_ r)) = m.

Definition cycle_fits (n m : nat) (c : Cycle) : Prop :=
  length (joint_positions c) = n ∧ length (position_data c) <= m.

(** ** Sample objects

    A robot with the body type H21 driven over the low-level path, what a
    backend answers while it connects, and the object [connect] leaves. *)
Definition sample_params : Params :=
  {| BodyType := Some "H21"; ControllerFrequency := None; JointPrecision := None;
     param_use_dcm := Some true; Prefix := Some "nao"; param_motor_groups := Some "Body" |}.

Definition sample_answers : ConnectAnswers :=
  {| params := sample_params; robot_is_wake_up := true;
     body_names_from_group :=
       ["WheelFL"; "WheelFR"; "HeadYaw"; "RHand"; "LHand"; "KneePitch"; "WheelB"];
     body_names := ["HeadYaw"; "KneePitch"; "WheelFL"];
     stop_interpolation_ok := true; stiffness_interpolation_ok := true;
     manager_throws := false; hw_fail := None |}.

Definition sample_robot : Robot := final (connect sample_answers Robot_new).

(** A velocity command: half a metre forward while turning. *)
Definition sample_twist : Twist :=
  {| geometry_msgs.linear :=
       {| geometry_msgs.x := 0.5; geometry_msgs.y := 0; geometry_msgs.z := 0 |};
     geometry_msgs.angular :=
       {| geometry_msgs.x := 0; geometry_msgs.y := 0; geometry_msgs.z := 1 |} |}.

(** A cycle in which the diagnostics fail and the controllers ask for a
    small move of one joint, the same cycle with an update that raises, and
    a cycle in which all is well. *)
Definition failing_cycle : Cycle :=
  {| ros_ok := true; joint_positions := [0.5; 0.25]%float; diagnostics_ok := false;
     stop_ok := true; update := UpdateWrites [("KneePitch", 0.5%float)];
     position_data := [1; 2; 3]%float |}.

Definition throwing_cycle : Cycle :=
  {| ros_ok := true; joint_positions := [0.5; 0.25]%float; diagnostics_ok := false;
     stop_ok := true; update := UpdateThrows "update failed";
     position_data := [1; 2; 3]%float |}.

Definition quiet_cycle : Cycle :=
  {| ros_ok := true; joint_positions := [0.5; 0.25]%float; diagnostics_ok := true;
     stop_ok := true; update := UpdateWrites []; position_data := [1; 2; 3]%float |}.

(** Answers under which [connect] fails: the robot is not awake; the
    backend rejects the stiffness request; the controller manager cannot be
    built; making the handles of the second joint raises. *)
Definition asleep_answers : ConnectAnswers :=
  {| params := sample_params; robot_is_wake_up := false;
     body_names_from_group := ["HeadYaw"; "KneePitch"];
     body_names := ["HeadYaw"; "KneePitch"; "WheelFL"];
     stop_interpolation_ok := true; stiffness_interpolation_ok := true;
     manager_throws := false; hw_fail := None |}.

Definition rejecting_answers : ConnectAnswers :=
  {| params := sample_params; robot_is_wake_up := true;
     body_names_from_group := ["HeadYaw"; "KneePitch"];
     body_names := ["HeadYaw"; "KneePitch"; "WheelFL"];
     stop_interpolation_ok := true; stiffness_interpolation_ok := false;
     manager_throws := false; hw_fail := None |}.

Definition no_manager_answers : ConnectAnswers :=
  {| params := sample_params; robot_is_wake_up := true;
     body_names_from_group := ["HeadYaw"; "KneePitch"];
     body_names := ["HeadYaw"; "KneePitch"; "WheelFL"];
     stop_interpolation_ok := true; stiffness_interpolation_ok := true;
     manager_throws := true; hw_fail := None |}.

Definition no_handle_answers : ConnectAnswers :=
  {| params := sample_params; robot_is_wake_up := true;
     body_names_from_group := ["HeadYaw"; "KneePitch"];
     body_names := ["HeadYaw"; "KneePitch"; "WheelFL"];
     stop_interpolation_ok := true; stiffness_interpolation_ok := true;
     manager_throws := false; hw_fail := Some (RaiseAtJoint 1 NewStateHandle) |}.

Definition connected (r : Robot) : Prop := is_connected_ r = true.

(** The reading of the diagnostics failure that has the rest of the
    iteration always run: the loop is left by its [while], after the update
    and the joint-state publish were made. *)
Definition rest_of_iteration_runs (c next : Cycle) (cycles : list Cycle) (r : Robot) : Prop :=
  ∃ r' t topic,
    controllerLoop (c :: next :: cycles) r = Done LoopEnded r' t
    ∧ ManagerUpdate ∈ t ∧ PublishJointStates topic ∈ t.

(** ** What [loadParams] leaves in the members

    The prefix of the topics after the slash is put, and the motor groups
    after the two size tests, as functions of what was read. *)
Definition slashed (prefix : string) : string :=
  if bool_decide (0 < String.length prefix) then
    if ends_with_slash prefix then prefix else (prefix ++ "/")%string
  else prefix.

Definition groups_of (tmp : string) : list string :=
  if bool_decide (tmp = "") then ["LArm"; "RArm"] else split_spaces tmp.

(** ** What every reachable object satisfies

    The four buffers have one length; the node handle the constructor
    allocated is there, and the flag [use_cmd_vel_] is as constructed. *)
Definition aligned (r : Robot) : Prop :=
  length (joint_angles_ r) = length (joint_commands_ r)
  ∧ length (joint_velocities_ r) = length (joint_commands_ r)
  ∧ length (joint_efforts_ r) = length (joint_commands_ r).

Definition well_formed (r : Robot) : Prop :=
  nhPtr_ r = true ∧ use_cmd_vel_ r = false ∧ aligned r.

(** The wrappers are there when they are needed: with the motion wrapper
    come the memory wrapper and the wrapper of the selected write path, a
    connected object has its motion and diagnostics wrappers, and without a
    motion wrapper there is no joint yet. *)
Definition wired (r : Robot) : Prop :=
  (motion_ r = true -> memory_ r = true ∧ write_path_ready r = true)
  ∧ (is_connected_ r = true -> motion_ r = true ∧ diagnostics_ r = true)
  ∧ (motion_ r = false -> joint_commands_ r = []).

(** ** What a run calls

    [emits I P m]: started where [I] holds, a run of [m] makes only calls
    that satisfy [P] and ends where [I] holds, whether it completes or
    faults. *)
Definition emits {A} (I : Robot -> Prop) (P : Event -> Prop) (m : M A) : Prop :=
  ∀ r, I r -> I (final (m r)) ∧ Forall P (trace (m r)).

(** A write of the commands goes over the path the flag selects. *)
Definition on_path (dcm : bool) (e : Event) : bool :=
  match e with
  | DcmWriteJoints _ => dcm
  | MotionWriteJoints _ => negb dcm
  | _ => true
  end.

Definition fixed (dcm : bool) (r : Robot) : Prop := use_dcm_ r = dcm.
Definition selected (dcm : bool) (e : Event) : Prop := on_path dcm e = true.

(** The calls that wire the object to ROS and to the controllers. *)
Definition wires (e : Event) : bool :=
  match e with
  | Subscribe _ | Advertise _ | RegisterStateHandle _ | RegisterPositionHandle _
  | RegisterInterface _ => true
  | _ => false
  end.

(** * Properties *)

(** ** The monad *)

Lemma bind_Done {A B} (m : M A) (k : A -> M B) r a r1 t1 :
  m r = Done a r1 t1 ->
  bind m k r =
    match k a r1 with
    | Done b r2 t2 => Done b r2 (t1 ++ t2)
    | Crash f r2 t2 => Crash f r2 (t1 ++ t2)
    end.
Proof. intros E. unfold bind. now rewrite E. Qed.

Lemma bind_Crash {A B} (m : M A) (k : A -> M B) r f r1 t1 :
  m r = Crash f r1 t1 -> bind m k r = Crash f r1 t1.
Proof. intros E. unfold bind. now rewrite E. Qed.

Lemma bind_Done_inv {A B} (m : M A) (k : A -> M B) r b r2 t :
  bind m k r = Done b r2 t ->
  ∃ a r1 t1 t2, m r = Done a r1 t1 ∧ k a r1 = Done b r2 t2 ∧ t = t1 ++ t2.
Proof.
  unfold bind. destruct (m r) as [a r1 t1|]; [|discriminate].
  destruct (k a r1) as [b' r2' t2|] eqn:E; [|discriminate].
  intros [= -> -> <-]. now exists a, r1, t1, t2.
Qed.

Lemma this_run r : this r = Done r r [].
Proof. reflexivity. Qed.

Lemma call_run e r : call e r = Done tt r [e].
Proof. reflexivity. Qed.

Lemma assign_run f r : assign f r = Done tt (f r) [].
Proof. reflexivity. Qed.

Lemma ret_run {A} (a : A) r : ret a r = Done a r [].
Proof. reflexivity. Qed.

Lemma via_run p e r : p r = true -> via p e r = Done tt r [e].
Proof. intros Hp. unfold via. now rewrite Hp. Qed.

Lemma bind_via {B} p e (k : unit -> M B) r :
  p r = true ->
  bind (via p e) k r =
    match k tt r with
    | Done b r2 t2 => Done b r2 ([e] ++ t2)
    | Crash f r2 t2 => Crash f r2 ([e] ++ t2)
    end.
Proof. intros Hp. apply bind_Done. now apply via_run. Qed.

Lemma bind_when_via {B} (c : bool) p e (k : unit -> M B) r :
  p r = true ->
  bind (when c (via p e)) k r =
    match k tt r with
    | Done b r2 t2 => Done b r2 ((if c then [e] else []) ++ t2)
    | Crash f r2 t2 => Crash f r2 ((if c then [e] else []) ++ t2)
    end.
Proof. intros Hp. destruct c; [now apply bind_via|reflexivity]. Qed.

(** Replace the first step of a run by its outcome. *)
Ltac run_with E := rewrite (bind_Done _ _ _ _ _ _ E); cbv beta iota.

(** The steps of a run that need no choice. *)
Ltac run_on :=
  repeat first
    [ rewrite (bind_Done _ _ _ _ _ _ (this_run _))
    | rewrite (bind_Done _ _ _ _ _ _ (ret_run _ _))
    | rewrite (bind_Done _ _ _ _ _ _ (call_run _ _))
    | rewrite (bind_Done _ _ _ _ _ _ (assign_run _ _))
    | rewrite bind_via by (first [reflexivity|assumption])
    | rewrite bind_when_via by (first [reflexivity|assumption])
    | progress cbv beta iota ].

Section Triples.
Context {A : Type} (P : Robot -> Prop).

Lemma triple_ret (a : A) : triple P (ret a) (λ _, P).
Proof. intros r a' r' t HP E. inversion E; subst. exact HP. Qed.

Lemma triple_this : triple P this (λ _, P).
Proof. intros r a' r' t HP E. inversion E; subst. exact HP. Qed.

Lemma triple_call e : triple P (call e) (λ _, P).
Proof. intros r a' r' t HP E. inversion E; subst. exact HP. Qed.

Lemma triple_fault f (Q : A -> Robot -> Prop) : triple P (fault f) Q.
Proof. intros r a' r' t HP. discriminate. Qed.

Lemma triple_via p e : triple P (via p e) (λ _, P).
Proof.
  intros r a' r' t HP. unfold via. destruct (p r); [|discriminate].
  intros E. inversion E; subst. exact HP.
Qed.

Lemma triple_assign f (Q : Robot -> Prop) :
  (∀ r, P r -> Q (f r)) -> triple P (assign f) (λ _, Q).
Proof. intros Hf r a' r' t HP E. inversion E; subst. now apply Hf. Qed.

Lemma triple_bind {B} (m : M A) (k : A -> M B) Q R :
  triple P m Q -> (∀ a, triple (Q a) (k a) R) -> triple P (bind m k) R.
Proof.
  intros Hm Hk r b r2 t HP E.
  apply bind_Done_inv in E as (a & r1 & t1 & t2 & Em & Ek & _).
  eapply Hk; [|exact Ek]. eapply Hm; [exact HP|exact Em].
Qed.

Lemma triple_post (m : M A) (Q Q' : A -> Robot -> Prop) :
  triple P m Q -> (∀ a r, Q a r -> Q' a r) -> triple P m Q'.
Proof. intros Hm HQ r a r' t HP E. eapply HQ, Hm; [exact HP|exact E]. Qed.

Lemma triple_any (m : M A) : triple P m (λ _ _, True).
Proof. intros r a r' t _ _. exact Logic.I. Qed.
End Triples.

Lemma preserves_assign I f : (∀ r, I r -> I (f r)) -> preserves I (assign f).
Proof. apply triple_assign. Qed.

Lemma preserves_when I b m : preserves I m -> preserves I (when b m).
Proof. intros Hm. destruct b; [exact Hm|apply triple_ret]. Qed.

Lemma preserves_getParam {T} I (v : option T) set :
  (∀ x r, I r -> I (set x r)) -> preserves I (getParam v set).
Proof.
  intros Hs. destruct v; [|apply triple_ret].
  apply triple_assign. intros r. apply Hs.
Qed.

(** The steps of a proof that a method keeps an invariant which follow its
    shape. *)
Ltac keep_step :=
  match goal with
  | |- preserves _ _ => unfold preserves
  | |- triple _ (bind _ _) _ => eapply triple_bind; [|intros ?]
  | |- triple _ (ret _) _ => apply triple_ret
  | |- triple _ this _ => apply triple_this
  | |- triple _ (call _) _ => apply triple_call
  | |- triple _ (via _ _) _ => apply triple_via
  | |- triple _ (fault _) _ => apply triple_fault
  | |- triple _ (when _ _) _ => apply preserves_when
  | |- triple _ (getParam _ _) _ => apply preserves_getParam; intros ? ? ? ; assumption
  | |- triple _ (assign _) _ => apply preserves_assign; intros ? ?; assumption
  | |- triple _ (if ?b then _ else _) _ => destruct b
  | |- triple _ (match ?o with Some _ => _ | None => _ end) _ => destruct o
  end.

Ltac keep_all := repeat keep_step.

Lemma total_ret {A} (a : A) : total (ret a).
Proof. intros r. now exists a, r, []. Qed.

Lemma total_this : total this.
Proof. intros r. now exists r, r, []. Qed.

Lemma total_call e : total (call e).
Proof. intros r. now exists tt, r, [e]. Qed.

Lemma total_assign f : total (assign f).
Proof. intros r. now exists tt, (f r), []. Qed.

Lemma total_bind {A B} (m : M A) (k : A -> M B) :
  total m -> (∀ a, total (k a)) -> total (bind m k).
Proof.
  intros Hm Hk r. destruct (Hm r) as (a & r1 & t1 & E1).
  destruct (Hk a r1) as (b & r2 & t2 & E2).
  exists b, r2, (t1 ++ t2). now rewrite (bind_Done _ _ _ _ _ _ E1), E2.
Qed.

Lemma total_when b m : total m -> total (when b m).
Proof. intros Hm. destruct b; [exact Hm|apply total_ret]. Qed.

Lemma total_getParam {T} (v : option T) set : total (getParam v set).
Proof. destruct v; [apply total_assign|apply total_ret]. Qed.

Ltac total_step :=
  match goal with
  | |- total (bind _ _) => apply total_bind; [|intros ?]
  | |- total (ret _) => apply total_ret
  | |- total this => apply total_this
  | |- total (call _) => apply total_call
  | |- total (assign _) => apply total_assign
  | |- total (when _ _) => apply total_when
  | |- total (getParam _ _) => apply total_getParam
  end.

Lemma safe_ret {A} I (a : A) : safe I (ret a).
Proof. intros r HI. now exists a, r, []. Qed.

Lemma safe_this I : safe I this.
Proof. intros r HI. now exists r, r, []. Qed.

Lemma safe_call I e : safe I (call e).
Proof. intros r HI. now exists tt, r, [e]. Qed.

Lemma safe_via I p e : (∀ r, I r -> p r = true) -> safe I (via p e).
Proof. intros Hp r HI. exists tt, r, [e]. split; [apply via_run, Hp, HI|exact HI]. Qed.

Lemma safe_bind {A B} I (m : M A) (k : A -> M B) :
  safe I m -> (∀ a, safe I (k a)) -> safe I (bind m k).
Proof.
  intros Hm Hk r HI. destruct (Hm r HI) as (a & r1 & t1 & E1 & HI1).
  destruct (Hk a r1 HI1) as (b & r2 & t2 & E2 & HI2).
  exists b, r2, (t1 ++ t2). split; [|exact HI2].
  now rewrite (bind_Done _ _ _ _ _ _ E1), E2.
Qed.

Lemma safe_when I b m : safe I m -> safe I (when b m).
Proof. intros Hm. destruct b; [exact Hm|apply safe_ret]. Qed.

(** ** [setStiffness] *)

(** The assignment comes first: it is made even when the wrapper is
    missing and the call faults. *)
Lemma setStiffness_assigns_first ok level r :
  final (setStiffness ok level r) = set_stiffness_ level r.
Proof.
  unfold setStiffness, bind, assign, this, via. simpl.
  destruct (motion_ r); [|reflexivity]. now destruct ok.
Qed.

Lemma setStiffness_Done ok level r :
  motion_ r = true ->
  setStiffness ok level r =
    Done ok (set_stiffness_ level r)
         [MotionStiffnessInterpolation (motor_groups_ r) level 1].
Proof.
  intros Hm. unfold setStiffness, bind, assign, this, via. simpl.
  rewrite Hm. now destruct ok.
Qed.

(** C9. When the backend rejects the interpolation, [setStiffness] returns
    [false] and the published stiffness value is already the requested
    level: the member is assigned before the backend is asked, and nothing
    restores it. *)
Theorem setStiffness_rejected_not_atomic (level : float) (r : Robot) :
  motion_ r = true ->
  ∃ r',
    setStiffness false level r =
      Done false r' [MotionStiffnessInterpolation (motor_groups_ r) level 1]
    ∧ stiffness_ r' = level
    ∧ r' = set_stiffness_ level r.
Proof.
  intros Hm. exists (set_stiffness_ level r).
  split; [now apply setStiffness_Done|]. split; reflexivity.
Qed.

Lemma setStiffness_rejected_not_atomic_witness :
  ∃ r',
    setStiffness false 1 (set_motion_ true Robot_new) =
      Done false r' [MotionStiffnessInterpolation [] 1 1]
    ∧ stiffness_ r' = 1%float
    ∧ r' = set_stiffness_ 1 (set_motion_ true Robot_new).
Proof.
  apply (setStiffness_rejected_not_atomic 1 (set_motion_ true Robot_new)). reflexivity.
Defined.

Lemma setStiffness_gives_motion ok level P :
  triple P (setStiffness ok level) (λ _, has_motion).
Proof.
  intros r a r' t _ E. unfold has_motion. destruct (motion_ r) eqn:Hm.
  - rewrite setStiffness_Done in E by exact Hm. inversion E; subst. exact Hm.
  - unfold setStiffness, bind, assign, this, via in E. simpl in E. rewrite Hm in E.
    discriminate.
Qed.

Lemma setStiffness_keeps_connected ok level : preserves connected (setStiffness ok level).
Proof. unfold setStiffness. keep_all. Qed.

(** ** [stopService] *)

(** [stopService] completes from every state. *)
Lemma stopService_Done ok r : stopService ok r = Done tt (stopped r) (stop_calls r).
Proof.
  unfold stopService, stopped, stop_calls, setStiffness, bind, this, call, when, via,
    assign, ret.
  destruct r as [? nh ? ? ? ? dcm ? groups ? ? motion ? ? ? ? ? ? ? ? ? ?]; simpl.
  destruct motion, dcm; simpl; destruct groups as [|g [|g' groups]]; simpl;
    try (destruct (decide (g = "Body")) as [->|Hne];
         [|rewrite !bool_decide_eq_false_2 by congruence]);
    simpl; destruct nh, ok; reflexivity.
Qed.

Lemma stopped_stopped r : stopped (stopped r) = stopped r.
Proof.
  unfold stopped. destruct r as [? ? ? ? ? ? ? ? ? ? ? [] ? ? ? ? ? ? ? ? ? ?]; reflexivity.
Qed.

Lemma stopped_with_motion r :
  motion_ r = true -> stopped r = set_is_connected_ false (set_stiffness_ 0 r).
Proof. intros Hm. unfold stopped. now rewrite Hm. Qed.

Lemma stopService_keeps_limp ok : preserves limp_without_motion (stopService ok).
Proof.
  intros r a r' t HI E. rewrite stopService_Done in E. inversion E; subst.
  unfold limp_without_motion, stopped in *. destruct (motion_ r) eqn:Hm; simpl; auto.
Qed.

Lemma stopService_keeps_motion ok : preserves has_motion (stopService ok).
Proof.
  intros r a r' t HI E. rewrite stopService_Done in E. inversion E; subst.
  unfold has_motion, stopped in *. rewrite HI. exact HI.
Qed.

Lemma stopService_safe n m ok : safe (shaped n m) (stopService ok).
Proof.
  intros r ((Hmem & Hmot & Hdiag & Hman & Hpath & Hlen & Hrange) & Hn & Hm).
  eexists _, _, _. split; [apply stopService_Done|].
  rewrite (stopped_with_motion r Hmot). repeat split; assumption.
Qed.

Example stopService_after_connect :
  stopService false sample_robot
  = Done tt (stopped sample_robot)
      [RosInfo "naoqi_dcm_driver stopping the service..."; MotionSetStiffnessArms 0 1;
       MotionRest; MotionStiffnessInterpolation ["Body"] 0 1; NodeHandleShutdown; RosShutdown].
Proof. reflexivity. Qed.

(** ** [initializeControllers] *)

Lemma resize_length n v : length (resize n v) = n.
Proof. unfold resize. rewrite length_app, length_take, length_replicate. lia. Qed.

Lemma int_of_size_small n : (Z.of_nat n < 2 ^ 31)%Z -> int_of_size n = Z.of_nat n.
Proof.
  intros Hn. unfold int_of_size.
  rewrite Z.mod_small by lia. lia.
Qed.

(** When no call raises, none of the tests for a raise is met. *)
Ltac no_raise :=
  repeat match goal with
         | |- context [bool_decide (None = Some ?raise)] =>
             change (bool_decide (None = Some raise)) with false
         end.

(** Without an exception, the loop registers the names it walks over, in
    order, each with the index it has in the list. *)
Lemma register_handles_Done names n i r :
  i + n <= length names ->
  register_handles None names n i r =
    Done true
      (set_jnt_pos_interface_
         (registered position_handle_of (take n (drop i names)) i (jnt_pos_interface_ r))
         (set_jnt_state_interface_
            (registered state_handle_of (take n (drop i names)) i (jnt_state_interface_ r))
            r))
      (registrations (take n (drop i names)) i).
Proof.
  revert i r. induction n as [|n IH]; intros i r Hlen.
  - rewrite take_0. now destruct r.
  - destruct (lookup_lt_is_Some_2 names i) as [joint Hjoint]; [lia|].
    rewrite (drop_S _ _ _ Hjoint), firstn_cons.
    cbn [register_handles registered registrations]. rewrite Hjoint.
    no_raise. unfold bind, call, assign, this. cbv beta iota.
    cbn [jnt_state_interface_ set_jnt_state_interface_]. rewrite lookup_insert_eq.
    cbv beta iota. rewrite IH by lia. reflexivity.
Qed.

Lemma registered_lookup_other {H} (handle_of : string -> nat -> H) names i interface joint :
  joint ∉ names -> registered handle_of names i interface !! joint = interface !! joint.
Proof.
  revert i interface. induction names as [|other names IH]; intros i interface Hnot;
    cbn [registered]; [reflexivity|].
  apply not_elem_of_cons in Hnot as [Hne Hnot].
  rewrite IH by exact Hnot. now apply lookup_insert_ne.
Qed.

(** The name at position [k] is registered for the slot at that position,
    unless the name comes again further on. *)
Lemma registered_lookup {H} (handle_of : string -> nat -> H) names i interface k joint :
  names !! k = Some joint ->
  (∀ j, k < j -> names !! j ≠ Some joint) ->
  registered handle_of names i interface !! joint = Some (handle_of joint (i + k)).
Proof.
  revert i interface k. induction names as [|first names IH]; intros i interface k Hk Hlast;
    [now rewrite lookup_nil in Hk|].
  cbn [registered]. destruct k as [|k]; simpl in Hk.
  - injection Hk as ->. rewrite registered_lookup_other.
    + rewrite lookup_insert_eq, Nat.add_0_r. reflexivity.
    + intros [j Hj]%list_elem_of_lookup. apply (Hlast (S j)); [lia|exact Hj].
  - rewrite (IH (S i) _ k Hk).
    + f_equal. f_equal. lia.
    + intros j Hj. apply (Hlast (S j)). lia.
Qed.

Lemma registered_in_range names i interface bound :
  i + length names <= bound ->
  map_Forall (λ _ h, jh_cmd h < bound) interface ->
  map_Forall (λ _ h, jh_cmd h < bound) (registered position_handle_of names i interface).
Proof.
  revert i interface. induction names as [|joint names IH]; intros i interface Hbound Hin;
    cbn [registered]; [exact Hin|].
  simpl in Hbound. apply IH; [lia|].
  apply map_Forall_insert_2; [simpl; lia|exact Hin].
Qed.

Lemma initializeControllers_Done (joints_names : list string) (r : Robot) :
  (Z.of_nat (length joints_names) < 2 ^ 31)%Z ->
  initializeControllers None joints_names r =
    Done true (initialized joints_names r)
      (registrations joints_names 0
       ++ [RegisterInterface StateInterface; RegisterInterface PositionInterface]).
Proof.
  intros Hsmall. unfold initializeControllers.
  rewrite (int_of_size_small _ Hsmall), Nat2Z.id.
  destruct (Z.ltb_spec (Z.of_nat (length joints_names)) 0) as [Hneg|_]; [lia|].
  unfold bind at 1 2 3 4, assign. cbv beta iota.
  match goal with
  | |- context [bind (register_handles None joints_names ?n 0) _ ?r1] =>
      rewrite (bind_Done _ _ r1 _ _ _ (register_handles_Done joints_names n 0 r1 (Nat.le_refl _)))
  end.
  rewrite drop_0, firstn_all. cbv beta iota. no_raise.
  unfold bind, call, ret. cbv beta iota. rewrite !app_nil_l. reflexivity.
Qed.

(** C8. For a list of N joint names, [initializeControllers] completes with
    [true]; each of the four buffers then has length N; the handles it
    registers are, for i = 0 .. N-1 in that order, the state handle that
    binds the i-th name to slot i of the angle, velocity and effort buffers
    and the position handle that binds the same name to slot i of the
    command buffer; and the interfaces answer for the i-th name with those
    handles (a name listed again later is answered with its last index,
    [registerHandle] replacing the earlier handle). *)
Theorem initializeControllers_aligned (joints_names : list string) (r : Robot) :
  (Z.of_nat (length joints_names) < 2 ^ 31)%Z ->
  ∃ r',
    initializeControllers None joints_names r =
      Done true r'
        (registrations joints_names 0
         ++ [RegisterInterface StateInterface; RegisterInterface PositionInterface])
    ∧ length (joint_angles_ r') = length joints_names
    ∧ length (joint_velocities_ r') = length joints_names
    ∧ length (joint_efforts_ r') = length joints_names
    ∧ length (joint_commands_ r') = length joints_names
    ∧ (∀ i joint,
        joints_names !! i = Some joint ->
        (∀ j, i < j -> joints_names !! j ≠ Some joint) ->
        jnt_state_interface_ r' !! joint = Some (state_handle_of joint i)
        ∧ jnt_pos_interface_ r' !! joint = Some (position_handle_of joint i))
    ∧ (NoDup joints_names ->
       ∀ i joint,
        joints_names !! i = Some joint ->
        jnt_state_interface_ r' !! joint = Some (state_handle_of joint i)
        ∧ jnt_pos_interface_ r' !! joint = Some (position_handle_of joint i)).
Proof.
  intros Hsmall. exists (initialized joints_names r).
  split; [now apply initializeControllers_Done|].
  unfold initialized.
  cbn [joint_angles_ joint_velocities_ joint_efforts_ joint_commands_
       jnt_state_interface_ jnt_pos_interface_
       set_jnt_pos_interface_ set_jnt_state_interface_ set_joint_commands_
       set_joint_efforts_ set_joint_velocities_ set_joint_angles_].
  rewrite !resize_length. repeat (split; [reflexivity|]).
  assert (Hlookup : ∀ i joint,
    joints_names !! i = Some joint ->
    (∀ j, i < j -> joints_names !! j ≠ Some joint) ->
    registered state_handle_of joints_names 0 (jnt_state_interface_ r) !! joint
      = Some (state_handle_of joint i)
    ∧ registered position_handle_of joints_names 0 (jnt_pos_interface_ r) !! joint
      = Some (position_handle_of joint i)).
  { intros i joint Hi Hlast. split.
    - apply (registered_lookup state_handle_of joints_names 0 _ i joint Hi Hlast).
    - apply (registered_lookup position_handle_of joints_names 0 _ i joint Hi Hlast). }
  split; [exact Hlookup|].
  intros Hdistinct i joint Hi. apply (Hlookup i joint Hi).
  intros j Hlt Hj. pose proof (NoDup_lookup _ _ _ _ Hdistinct Hi Hj). lia.
Qed.

Lemma initializeControllers_aligned_witness :
  ∃ r',
    initializeControllers None ["HeadYaw"; "KneePitch"] Robot_new =
      Done true r'
        (registrations ["HeadYaw"; "KneePitch"] 0
         ++ [RegisterInterface StateInterface; RegisterInterface PositionInterface])
    ∧ length (joint_angles_ r') = 2
    ∧ length (joint_velocities_ r') = 2
    ∧ length (joint_efforts_ r') = 2
    ∧ length (joint_commands_ r') = 2
    ∧ jnt_state_interface_ r' !! "KneePitch" = Some (state_handle_of "KneePitch" 1)
    ∧ jnt_pos_interface_ r' !! "KneePitch" = Some (position_handle_of "KneePitch" 1).
Proof.
  destruct (initializeControllers_aligned ["HeadYaw"; "KneePitch"] Robot_new)
    as (r' & E & Ha & Hv & He & Hc & _ & Hdistinct); [simpl; lia|].
  exists r'. repeat (split; [assumption|]).
  assert (Hnames : NoDup ["HeadYaw"; "KneePitch"])
    by (apply NoDup_cons; split; [rewrite list_elem_of_singleton; discriminate
                                 |apply NoDup_singleton]).
  apply (Hdistinct Hnames 1 "KneePitch"). reflexivity.
Defined.

Example registrations_in_order :
  registrations ["HeadYaw"; "KneePitch"] 0
  = [RegisterStateHandle {| sh_name := "HeadYaw"; sh_pos := 0; sh_vel := 0; sh_eff := 0 |};
     RegisterPositionHandle
       {| jh_state := {| sh_name := "HeadYaw"; sh_pos := 0; sh_vel := 0; sh_eff := 0 |};
          jh_cmd := 0 |};
     RegisterStateHandle {| sh_name := "KneePitch"; sh_pos := 1; sh_vel := 1; sh_eff := 1 |};
     RegisterPositionHandle
       {| jh_state := {| sh_name := "KneePitch"; sh_pos := 1; sh_vel := 1; sh_eff := 1 |};
          jh_cmd := 1 |}].
Proof. reflexivity. Qed.

Lemma register_handles_keeps I hw names n i :
  (∀ v r, I r -> I (set_jnt_state_interface_ v r)) ->
  (∀ v r, I r -> I (set_jnt_pos_interface_ v r)) ->
  preserves I (register_handles hw names n i).
Proof.
  intros Hs Hp. revert i. induction n as [|n IH]; intros i; cbn [register_handles].
  - apply triple_ret.
  - destruct (names !! i); [|apply triple_fault].
    destruct (bool_decide (hw = Some (RaiseAtJoint i NewStateHandle))); [apply triple_ret|].
    destruct (bool_decide (hw = Some (RaiseAtJoint i RegisterState))); [apply triple_ret|].
    eapply triple_bind; [apply triple_call|intros ?].
    eapply triple_bind; [apply preserves_assign; intros r Hr; apply Hs, Hr|intros ?].
    destruct (bool_decide (hw = Some (RaiseAtJoint i GetHandle))); [apply triple_ret|].
    eapply triple_bind; [apply triple_this|intros r1].
    destruct (jnt_state_interface_ r1 !! _); [|apply triple_fault].
    destruct (bool_decide (hw = Some (RaiseAtJoint i NewPositionHandle))); [apply triple_ret|].
    destruct (bool_decide (hw = Some (RaiseAtJoint i RegisterPosition))); [apply triple_ret|].
    eapply triple_bind; [apply triple_call|intros ?].
    eapply triple_bind; [apply preserves_assign; intros r Hr; apply Hp, Hr|intros ?].
    apply IH.
Qed.

Lemma initializeControllers_keeps I hw names :
  (∀ v r, I r -> I (set_joint_angles_ v r)) ->
  (∀ v r, I r -> I (set_joint_velocities_ v r)) ->
  (∀ v r, I r -> I (set_joint_efforts_ v r)) ->
  (∀ v r, I r -> I (set_joint_commands_ v r)) ->
  (∀ v r, I r -> I (set_jnt_state_interface_ v r)) ->
  (∀ v r, I r -> I (set_jnt_pos_interface_ v r)) ->
  preserves I (initializeControllers hw names).
Proof.
  intros Ha Hv He Hc Hs Hp.
  unfold initializeControllers. destruct (_ <? _)%Z; [apply triple_fault|].
  eapply triple_bind; [apply preserves_assign; intros r Hr; apply Ha, Hr|intros ?].
  eapply triple_bind; [apply preserves_assign; intros r Hr; apply Hv, Hr|intros ?].
  eapply triple_bind; [apply preserves_assign; intros r Hr; apply He, Hr|intros ?].
  eapply triple_bind; [apply preserves_assign; intros r Hr; apply Hc, Hr|intros ?].
  eapply triple_bind; [apply register_handles_keeps; assumption|intros ok].
  destruct ok; keep_all.
Qed.

Lemma initializeControllers_keeps_motion hw names :
  preserves has_motion (initializeControllers hw names).
Proof. apply initializeControllers_keeps; intros v r Hr; exact Hr. Qed.

(** ** [ignoreMimicJoints] *)

Lemma prefix_append (p s : string) :
  String.prefix p s = true ↔ ∃ after, s = (p ++ after)%string.
Proof.
  revert s. induction p as [|a p IH]; intros s; simpl.
  - split; [intros _; now exists s|intros _; now destruct s].
  - destruct s as [|b s]; [split; [discriminate|intros [? [=]]]|].
    change (String.prefix (String a p) (String b s))
      with (if Ascii.ascii_dec a b then String.prefix p s else false).
    destruct (Ascii.ascii_dec a b) as [<-|Hne].
    + rewrite IH. split; intros [after E]; exists after.
      * now subst s.
      * now injection E.
    + split; [discriminate|]. intros [after E]. injection E as E _. congruence.
Qed.

(** [find] succeeds exactly on the strings that contain the pattern. *)
Lemma find_contains (pattern s : string) :
  find pattern s ≠ None ↔ contains pattern s.
Proof.
  unfold find, contains. induction s as [|c s IH].
  - simpl. destruct pattern as [|a p].
    + split; [intros _; now exists "", ""|discriminate].
    + split; [congruence|]. intros (before & after & E).
      destruct before; simpl in E; discriminate.
  - cbn [String.index]. destruct (String.prefix pattern (String c s)) eqn:Ep.
    + split; [intros _|discriminate].
      apply prefix_append in Ep as [after E]. now exists "", after.
    + assert (Hrec : (match String.index 0 pattern s with
                      | Some n => Some (S n) | None => None end ≠ None)
                     ↔ String.index 0 pattern s ≠ None)
        by (destruct (String.index 0 pattern s); split; congruence).
      rewrite Hrec, IH. split.
      * intros (before & after & ->). now exists (String c before), after.
      * intros (before & after & E). destruct before as [|b before]; simpl in E.
        -- assert (String.prefix pattern (String c s) = true)
             by (apply prefix_append; now exists after).
           congruence.
        -- injection E as _ ->. now exists before, after.
Qed.

Lemma is_mimic_excluded (body_type joint : string) :
  is_mimic body_type joint = true ↔ excluded body_type joint.
Proof.
  unfold is_mimic, excluded.
  rewrite orb_true_iff, negb_true_iff, bool_decide_eq_false, find_contains.
  rewrite andb_true_iff, !orb_true_iff, !String.eqb_eq, !elem_of_cons, elem_of_nil.
  tauto.
Qed.

(** With the iterator after a kept prefix, the loop keeps that prefix and
    filters what lies ahead; an erased element costs no position. *)
Lemma ignoreMimicJoints_loop_filter body_type (ahead kept : list string) (fuel : nat) :
  length ahead < fuel ->
  ignoreMimicJoints_loop fuel body_type (kept ++ ahead) (Z.of_nat (length kept))
  = Some (kept ++ filter (λ joint, is_mimic body_type joint = false) ahead).
Proof.
  revert kept fuel. induction ahead as [|joint ahead IH]; intros kept fuel Hfuel;
    (destruct fuel as [|fuel]; [simpl in Hfuel; lia|]); cbn [ignoreMimicJoints_loop].
  - rewrite app_nil_r, bool_decide_eq_true_2 by reflexivity. now rewrite app_nil_r.
  - simpl in Hfuel.
    rewrite bool_decide_eq_false_2 by (rewrite length_app; simpl; lia).
    rewrite bool_decide_eq_true_2 by (rewrite length_app; simpl; lia).
    rewrite Nat2Z.id, list_lookup_middle by reflexivity.
    rewrite filter_cons. destruct (is_mimic body_type joint) eqn:E.
    + rewrite decide_False by discriminate.
      replace (Z.of_nat (length kept) - 1 + 1)%Z with (Z.of_nat (length kept)) by lia.
      replace (delete (length kept) (kept ++ joint :: ahead)) with (kept ++ ahead).
      * apply IH. lia.
      * rewrite delete_middle. reflexivity.
    + rewrite decide_True by reflexivity.
      replace (Z.of_nat (length kept) + 1)%Z with (Z.of_nat (length (kept ++ [joint])))
        by (rewrite length_app; simpl; lia).
      replace (kept ++ joint :: ahead) with ((kept ++ [joint]) ++ ahead)
        by now rewrite <- app_assoc.
      rewrite IH by lia. now rewrite <- app_assoc.
Qed.

Lemma ignoreMimicJoints_Some body_type joints :
  ignoreMimicJoints body_type joints
  = Some (filter (λ joint, is_mimic body_type joint = false) joints).
Proof.
  unfold ignoreMimicJoints.
  apply (ignoreMimicJoints_loop_filter body_type joints [] (S (length joints))). lia.
Qed.

(** C2. [ignoreMimicJoints] ends and leaves the names its test does not
    match, each as often and in the order it came; the names it matches are
    the excluded ones.  So no name containing "Wheel" remains, on the body
    type H21 none of "RHand", "LHand", "RWristYaw", "LWristYaw" remains,
    every other name stays, and the list left is a sublist of the list
    given.  Adjacent matches and a match in the first position are covered,
    the list being arbitrary. *)
Theorem ignoreMimicJoints_filters (body_type : string) (joints : list string) :
  ∃ kept,
    ignoreMimicJoints body_type joints = Some kept
    ∧ kept = filter (λ joint, is_mimic body_type joint = false) joints
    ∧ (∀ joint, is_mimic body_type joint = true ↔ excluded body_type joint)
    ∧ (∀ joint, joint ∈ kept ↔ joint ∈ joints ∧ ¬ excluded body_type joint)
    ∧ kept `sublist_of` joints.
Proof.
  exists (filter (λ joint, is_mimic body_type joint = false) joints).
  split; [|split; [|split; [|split]]].
  - unfold ignoreMimicJoints.
    apply (ignoreMimicJoints_loop_filter body_type joints [] (S (length joints))). lia.
  - reflexivity.
  - intros joint. apply is_mimic_excluded.
  - intros joint. rewrite list_elem_of_filter, <- is_mimic_excluded.
    destruct (is_mimic body_type joint); split; intros []; split; congruence.
  - apply sublist_filter.
Qed.

Example ignoreMimicJoints_adjacent_and_first :
  ignoreMimicJoints "H21"
    ["WheelFL"; "WheelFR"; "RHand"; "HeadYaw"; "LHand"; "LWristYaw"; "KneePitch"]
  = Some ["HeadYaw"; "KneePitch"].
Proof. reflexivity. Qed.

Example ignoreMimicJoints_other_body :
  ignoreMimicJoints "V40" ["RHand"; "MyWheel"; "HeadYaw"] = Some ["RHand"; "HeadYaw"].
Proof. reflexivity. Qed.

(** ** [loadParams] and [subscribe] *)

Example split_spaces_groups : split_spaces "LArm RArm" = ["LArm"; "RArm"].
Proof. reflexivity. Qed.

(** [loadParams] completes whatever the parameter server holds, and touches
    neither the node handle nor the interfaces. *)
Lemma loadParams_total p : total (loadParams p).
Proof. unfold loadParams. repeat total_step. Qed.

Lemma loadParams_frame p :
  preserves (λ r, nhPtr_ r = true ∧ jnt_pos_interface_ r = ∅) (loadParams p).
Proof. unfold loadParams. repeat keep_step. Qed.

Lemma subscribe_Done r :
  nhPtr_ r = true ->
  ∃ t, subscribe r = Done tt (set_stiffness_ 1 r) t.
Proof.
  intros Hnh. unfold subscribe, bind, this, when, via, call, assign, ret. cbv beta iota.
  destruct (use_cmd_vel_ r); cbv beta iota; rewrite ?Hnh; cbv beta iota;
    cbn [nhPtr_ set_stiffness_]; rewrite ?Hnh; eexists; reflexivity.
Qed.

Lemma subscribe_keeps I :
  (∀ v r, I r -> I (set_stiffness_ v r)) -> preserves I subscribe.
Proof.
  intros Hs. unfold subscribe.
  do 4 (eapply triple_bind; [keep_all|intros ?]).
  eapply triple_bind; [apply preserves_assign; intros r Hr; apply Hs, Hr|intros ?].
  keep_all.
Qed.

Lemma subscribe_keeps_motion : preserves has_motion subscribe.
Proof. apply subscribe_keeps. intros v r Hr. exact Hr. Qed.

(** ** [connect] *)

(** Once the robot is found awake, every return of [connect], also a [false]
    one, leaves the connected flag set: it is raised before the stiffness
    request, the controller manager and the handles, and no failure among
    those lowers it again. *)
Lemma connect_awake_leaves_connected a :
  robot_is_wake_up a = true ->
  triple (λ _, True) (connect a) (λ _, connected).
Proof.
  intros Hawake. unfold connect. rewrite Hawake. cbn [negb].
  do 11 (eapply triple_bind; [apply triple_any|intros ?; cbv beta]).
  destruct (ignoreMimicJoints _ _); [|apply triple_fault].
  do 8 (eapply triple_bind; [apply triple_any|intros ?; cbv beta]).
  eapply triple_bind;
    [apply (triple_assign _ _ connected); intros r _; reflexivity|intros ?].
  eapply triple_bind; [apply subscribe_keeps; intros v r Hr; exact Hr|intros ?].
  eapply triple_bind; [apply setStiffness_keeps_connected|intros ok].
  destruct (negb ok); [apply triple_ret|].
  destruct (manager_throws a); [keep_all|].
  eapply triple_bind; [apply preserves_assign; intros r Hr; exact Hr|intros ?].
  eapply triple_bind;
    [apply initializeControllers_keeps; intros v r Hr; exact Hr|intros ok'].
  destruct (negb ok'); keep_all.
Qed.

(** C3, as the code has it. When the robot is not awake, [connect] calls
    [stopService] and returns [false] with the flag down. When the stiffness
    request is rejected, when the controller manager cannot be built, and
    when a handle cannot be registered, [connect] returns [false] as well,
    but [isConnected] then answers [true]: the flag raised before those
    steps stays up. *)
Theorem connect_failures_and_flag :
  (∃ r t, connect asleep_answers Robot_new = Done false r t
          ∧ isConnected r = Done false r [])
  ∧ (∃ r t, connect rejecting_answers Robot_new = Done false r t
            ∧ isConnected r = Done true r [])
  ∧ (∃ r t, connect no_manager_answers Robot_new = Done false r t
            ∧ isConnected r = Done true r [])
  ∧ (∃ r t, connect no_handle_answers Robot_new = Done false r t
            ∧ isConnected r = Done true r []).
Proof.
  repeat split; eexists _, _; (split; [vm_compute; reflexivity|]); vm_compute; reflexivity.
Qed.

(** When the robot is awake and nothing fails, [connect] on an object whose
    interfaces are still empty returns [true] and leaves the object
    connected and ready for the cycles. *)
Lemma connect_Done_ready a r :
  nhPtr_ r = true -> jnt_pos_interface_ r = ∅ ->
  (Z.of_nat (length (body_names_from_group a)) < 2 ^ 31)%Z ->
  robot_is_wake_up a = true -> stiffness_interpolation_ok a = true ->
  manager_throws a = false -> hw_fail a = None ->
  ∃ r' t, connect a r = Done true r' t ∧ ready r' ∧ connected r'.
Proof.
  intros Hnh Hpos Hsmall Hawake Hstiff Hman Hhw. unfold connect.
  run_with (assign_run (set_is_connected_ false) r).
  destruct (loadParams_total (params a) (set_is_connected_ false r)) as ([] & r1 & t1 & E1).
  destruct (loadParams_frame (params a) (set_is_connected_ false r) _ _ _
              (conj Hnh Hpos) E1) as [Hnh1 Hpos1].
  run_with E1. run_with (this_run r1).
  rewrite Hawake, Hstiff, Hman, Hhw, ignoreMimicJoints_Some. cbn [negb].
  set (joints_names := filter _ (body_names_from_group a)).
  assert (Hnames : (Z.of_nat (length joints_names) < 2 ^ 31)%Z).
  { pose proof (length_filter (λ joint, is_mimic (body_type_ r1) joint = false)
                 (body_names_from_group a)). subst joints_names. lia. }
  destruct (use_dcm_ r1) eqn:Hdcm; cbn [when negb]; run_on;
    (destruct (bool_decide (length _ = 1)); [destruct (bool_decide (_ !! 0 = _))|]);
    cbn [when]; run_on;
    lazymatch goal with
    | |- context [bind subscribe _ ?r2] =>
        destruct (subscribe_Done r2 Hnh1) as (ts & Es); run_with Es
    end;
    lazymatch goal with
    | |- context [bind (setStiffness true 1) _ ?r2] =>
        rewrite (bind_Done _ _ _ _ _ _ (setStiffness_Done true 1 r2 eq_refl))
    end; cbn [negb]; run_on;
    lazymatch goal with
    | |- context [bind (initializeControllers None joints_names) _ ?r2] =>
        rewrite (bind_Done _ _ _ _ _ _ (initializeControllers_Done joints_names r2 Hnames))
    end; cbn [negb]; run_on; unfold ret; cbv beta iota;
    (eexists _, _; split; [reflexivity|split; [|reflexivity]]).
  all: unfold ready, write_path_ready, handles_in_range, initialized;
    cbn [memory_ motion_ diagnostics_ manager_ use_dcm_ dcm_ joint_angles_ joint_commands_
         jnt_pos_interface_ set_jnt_pos_interface_ set_jnt_state_interface_
         set_joint_commands_ set_joint_efforts_ set_joint_velocities_ set_joint_angles_
         set_manager_ set_stiffness_ set_is_connected_ set_diagnostics_
         set_joint_states_topic_ set_motion_ set_memory_ set_dcm_];
    rewrite ?Hdcm, !resize_length, Hpos1; repeat (split; [reflexivity|]);
    (apply registered_in_range; [simpl; lia|apply map_Forall_empty]).
Qed.

Example connect_succeeds :
  ∃ r t, connect sample_answers Robot_new = Done true r t
         ∧ is_connected_ r = true
         ∧ joint_commands_ r = [0%float; 0%float]
         ∧ motor_groups_ r = ["Body"] ∧ prefix_ r = "nao/".
Proof. eexists _, _. split; [vm_compute; reflexivity|]. repeat split. Qed.

Lemma sample_robot_ready : ready sample_robot.
Proof.
  repeat (split; [reflexivity|]).
  unfold handles_in_range. refine (bool_decide_unpack _ _). vm_compute. exact Logic.I.
Qed.

Lemma connect_keeps_limp a : preserves limp_without_motion (connect a).
Proof.
  unfold connect, preserves.
  do 6 (eapply triple_bind; [apply triple_any|intros ?; cbv beta]).
  eapply triple_bind;
    [apply (triple_assign _ _ has_motion); intros r _; reflexivity|intros ?].
  eapply triple_post with (Q := λ _, has_motion);
    [|unfold has_motion, limp_without_motion; intros; congruence].
  eapply triple_bind; [destruct (bool_decide _); keep_all|intros ?].
  eapply triple_bind; [apply triple_via|intros ?].
  destruct (negb _).
  - keep_all. apply stopService_keeps_motion.
  - eapply triple_bind; [keep_all|intros ?].
    eapply triple_bind; [keep_all|intros ?].
    destruct (ignoreMimicJoints _ _); [|apply triple_fault].
    do 5 (eapply triple_bind; [keep_all|intros ?]).
    eapply triple_bind; [apply preserves_assign; intros r Hr; exact Hr|intros ?].
    eapply triple_bind; [keep_all|intros ?].
    do 2 (eapply triple_bind; [apply preserves_assign; intros r Hr; exact Hr|intros ?]).
    eapply triple_bind; [apply subscribe_keeps_motion|intros ?].
    eapply triple_bind; [apply setStiffness_gives_motion|intros ok].
    destruct (negb ok); [apply triple_ret|].
    destruct (manager_throws a); [keep_all|].
    eapply triple_bind; [apply preserves_assign; intros r Hr; exact Hr|intros ?].
    eapply triple_bind; [apply initializeControllers_keeps_motion|intros ok'].
    destruct (negb ok'); keep_all.
Qed.

(** ** [commandVelocity] *)

(** C5. With the low-level path active, a velocity command lowers the arm
    stiffness to 0, issues the move, and raises the arm stiffness to 1, in
    that order and within the one call; without it, the move is issued with
    no arm-stiffness call around it. *)
Theorem commandVelocity_stiffness_bracket (msg : Twist) (r : Robot) :
  motion_ r = true ->
  let move := MotionMoveTo (geometry_msgs.x (geometry_msgs.linear msg))
                           (geometry_msgs.y (geometry_msgs.linear msg))
                           (geometry_msgs.z (geometry_msgs.angular msg)) in
  ∃ t,
    commandVelocity msg r = Done tt r t
    ∧ (use_dcm_ r = true ->
       t = [MotionSetStiffnessArms 0 1; move; Sleep 1; MotionSetStiffnessArms 1 1]
       ∧ List.filter arm_or_move t
         = [MotionSetStiffnessArms 0 1; move; MotionSetStiffnessArms 1 1])
    ∧ (use_dcm_ r = false ->
       t = [move; Sleep 1] ∧ List.filter arm_or_move t = [move]).
Proof.
  intros Hm move. unfold commandVelocity, bind, this, via, call, when, ret. simpl.
  destruct (use_dcm_ r); simpl; rewrite ?Hm; simpl;
    eexists; (split; [reflexivity|]); split; intros; try discriminate;
    split; reflexivity.
Qed.

Lemma commandVelocity_stiffness_bracket_witness :
  ∃ t,
    commandVelocity sample_twist sample_robot = Done tt sample_robot t
    ∧ t = [MotionSetStiffnessArms 0 1; MotionMoveTo 0.5 0 1; Sleep 1; MotionSetStiffnessArms 1 1]
    ∧ List.filter arm_or_move t
      = [MotionSetStiffnessArms 0 1; MotionMoveTo 0.5 0 1; MotionSetStiffnessArms 1 1].
Proof.
  destruct (commandVelocity_stiffness_bracket sample_twist sample_robot eq_refl)
    as (t & E & Hdcm & _).
  exists t. split; [exact E|]. apply Hdcm. reflexivity.
Defined.

Lemma commandVelocity_keeps_limp msg : preserves limp_without_motion (commandVelocity msg).
Proof. unfold commandVelocity. keep_all. Qed.

(** ** [readJoints] *)

Lemma overwrite_length values n i v : length (overwrite values n i v) = length v.
Proof.
  revert i v. induction n as [|n IH]; intros i v; simpl; [reflexivity|].
  destruct (values !! i); [|reflexivity]. now rewrite IH, length_insert.
Qed.

Lemma overwrite_lookup values n i v k :
  i + n <= length values -> i + n <= length v ->
  overwrite values n i v !! k = if bool_decide (i <= k < i + n) then values !! k else v !! k.
Proof.
  revert i v. induction n as [|n IH]; intros i v Hvalues Hv; simpl.
  - rewrite bool_decide_eq_false_2 by lia. reflexivity.
  - destruct (lookup_lt_is_Some_2 values i) as [value Hvalue]; [lia|]. rewrite Hvalue.
    rewrite IH by (rewrite ?length_insert; lia).
    destruct (decide (k = i)) as [->|Hne].
    + rewrite bool_decide_eq_false_2, bool_decide_eq_true_2 by lia.
      rewrite list_lookup_insert_eq by lia. now rewrite Hvalue.
    + rewrite list_lookup_insert_ne by congruence.
      destruct (decide (S i <= k < S i + n)).
      * now rewrite !bool_decide_eq_true_2 by lia.
      * now rewrite !bool_decide_eq_false_2 by lia.
Qed.

Lemma overwrite_all values v :
  length values = length v -> overwrite values (length v) 0 v = values.
Proof.
  intros Hlen. apply list_eq. intros k. rewrite overwrite_lookup by lia.
  destruct (decide (k < length v)).
  - now rewrite bool_decide_eq_true_2 by lia.
  - rewrite bool_decide_eq_false_2 by lia.
    rewrite !lookup_ge_None_2 by lia. reflexivity.
Qed.

(** In bounds, the loop writes the same values into both buffers. *)
Lemma readJoints_loop_Done values n i r :
  i + n <= length values -> i + n <= length (joint_angles_ r) ->
  readJoints_loop values n i r =
    Done tt (set_joint_commands_ (overwrite values n i (joint_commands_ r))
              (set_joint_angles_ (overwrite values n i (joint_angles_ r)) r)) [].
Proof.
  revert i r. induction n as [|n IH]; intros i r Hvalues Hangles.
  - destruct r; reflexivity.
  - cbn [readJoints_loop overwrite].
    destruct (lookup_lt_is_Some_2 values i) as [value Hvalue]; [lia|]. rewrite Hvalue.
    unfold bind, this, assign. rewrite bool_decide_eq_true_2 by lia.
    rewrite IH by (simpl; rewrite ?length_insert; lia). reflexivity.
Qed.

(** When the backend answers with one value per slot, [readJoints] stores
    the answer as the measured angles and as the commands. *)
Lemma readJoints_Done values r :
  memory_ r = true ->
  length values = length (joint_commands_ r) ->
  length (joint_angles_ r) = length (joint_commands_ r) ->
  readJoints values r =
    Done tt (set_joint_commands_ values (set_joint_angles_ values r)) [MemoryGetListData].
Proof.
  intros Hmem Hvalues Hangles. unfold readJoints, bind, via, this. rewrite Hmem.
  rewrite readJoints_loop_Done by lia.
  rewrite overwrite_all by lia. rewrite <- Hangles, overwrite_all by lia. reflexivity.
Qed.

(** When it answers with fewer, the loop reads past the end of the answer,
    after it has overwritten the slots the answer reaches. *)
Lemma readJoints_loop_short values n i r :
  i <= length values -> length values < i + n -> length values <= length (joint_angles_ r) ->
  ∃ r', readJoints_loop values n i r = Crash OutOfBounds r' []
        ∧ joint_angles_ r'
          = overwrite values (length values - i) i (joint_angles_ r)
        ∧ joint_commands_ r'
          = overwrite values (length values - i) i (joint_commands_ r).
Proof.
  revert i r. induction n as [|n IH]; intros i r Hi Hshort Hangles; [lia|].
  cbn [readJoints_loop]. destruct (values !! i) as [value|] eqn:Hvalue.
  - apply lookup_lt_Some in Hvalue as Hlt.
    unfold bind, this, assign. rewrite bool_decide_eq_true_2 by lia. cbv beta iota.
    match goal with
    | |- context [readJoints_loop values n (S i) ?r1] =>
        destruct (IH (S i) r1) as (r' & -> & Ha & Hc);
          [lia|lia|simpl; rewrite length_insert; lia|]
    end.
    exists r'. split; [reflexivity|].
    replace (length values - i) with (S (length values - S i)) by lia.
    simpl in Ha, Hc. cbn [overwrite]. rewrite Hvalue. now split.
  - apply lookup_ge_None in Hvalue. exists r. split; [reflexivity|].
    replace (length values - i) with 0 by lia. now split.
Qed.

Lemma readJoints_short_read values r :
  memory_ r = true ->
  length values < length (joint_commands_ r) ->
  length (joint_angles_ r) = length (joint_commands_ r) ->
  ∃ r', readJoints values r = Crash OutOfBounds r' [MemoryGetListData]
        ∧ take (length values) (joint_angles_ r') = values
        ∧ take (length values) (joint_commands_ r') = values.
Proof.
  intros Hmem Hshort Hangles. unfold readJoints, bind, via, this. rewrite Hmem.
  destruct (readJoints_loop_short values (length (joint_commands_ r)) 0 r)
    as (r' & -> & Ha & Hc); [lia|lia|lia|].
  exists r'. split; [reflexivity|]. rewrite Ha, Hc, Nat.sub_0_r.
  split; apply list_eq; intros k; rewrite lookup_take; case_decide;
    rewrite ?overwrite_lookup by lia; rewrite ?bool_decide_eq_true_2 by lia;
    try reflexivity; now rewrite lookup_ge_None_2 by lia.
Qed.

(** C6, as the code has it. Two slots and an answer of one value: no length
    is compared and no error branch is taken; the loop overwrites slot 0 of
    both buffers and then reads the answer at index 1, outside it. *)
Theorem readJoints_short_answer_reads_outside :
  length (joint_commands_ sample_robot) = 2
  ∧ ∃ r',
      readJoints [0.5%float] sample_robot = Crash OutOfBounds r' [MemoryGetListData]
      ∧ joint_angles_ r' = [0.5%float; 0%float]
      ∧ joint_commands_ r' = [0.5%float; 0%float].
Proof. split; [reflexivity|]. eexists. split; [reflexivity|]. split; reflexivity. Qed.

Lemma readJoints_keeps_limp values : preserves limp_without_motion (readJoints values).
Proof.
  unfold readJoints, preserves.
  eapply triple_bind; [apply triple_via|intros ?].
  eapply triple_bind; [apply triple_this|intros r0].
  generalize (length (joint_commands_ r0)) 0. clear.
  intros n. induction n as [|n IH]; intros i; cbn [readJoints_loop].
  - apply triple_ret.
  - destruct (values !! i); [|apply triple_fault].
    eapply triple_bind; [apply triple_this|intros r1].
    destruct (bool_decide _); [|apply triple_fault].
    do 2 (eapply triple_bind; [apply preserves_assign; intros r Hr; exact Hr|intros ?]).
    apply IH.
Qed.

Lemma readJoints_safe n m values :
  length values = n -> safe (shaped n m) (readJoints values).
Proof.
  intros Hvalues r ((Hmem & Hmot & Hdiag & Hman & Hpath & Hlen & Hrange) & Hn & Hm).
  eexists _, _, _. split; [apply readJoints_Done; congruence|].
  repeat split; try assumption; simpl; try congruence.
  unfold handles_in_range in *. simpl. now rewrite Hvalues, <- Hn.
Qed.

(** ** [writeJoints] *)

Lemma detect_change_spec precision (commands angles : list float) :
  length commands <= length angles ->
  let changed := ∃ (i : nat) (command now : float),
    commands !! i = Some command ∧ angles !! i = Some now
    ∧ exceeds precision command now = true in
  (detect_change precision commands angles = Some true ∧ changed)
  ∨ (detect_change precision commands angles = Some false ∧ ¬ changed).
Proof.
  revert angles. induction commands as [|c commands IH]; intros angles Hlen; simpl.
  - right. split; [reflexivity|]. intros (i & c & a & Hc & _). now rewrite lookup_nil in Hc.
  - destruct angles as [|a angles]; simpl in Hlen; [lia|].
    destruct (exceeds precision c a) eqn:E.
    + left. split; [reflexivity|]. now exists 0, c, a.
    + destruct (IH angles) as [[-> (i & c' & a' & Hc & Ha & He)]|[-> Hno]]; [lia| |].
      * left. split; [reflexivity|]. now exists (S i), c', a'.
      * right. split; [reflexivity|]. intros ([|i] & c' & a' & Hc & Ha & He).
        -- simpl in Hc, Ha. congruence.
        -- apply Hno. now exists i, c', a'.
Qed.

(** The test of the loop is the strict order of binary64 on the absolute
    value of the difference, in the words of the floats and in those of
    IEEE 754. *)
Lemma exceeds_spec precision command now :
  exceeds precision command now = (precision <? PrimFloat.abs (command - now))%float.
Proof. reflexivity. Qed.

Lemma exceeds_IEEE precision command now :
  exceeds precision command now
  = SFltb (Prim2SF precision) (SFabs (SF64sub (Prim2SF command) (Prim2SF now))).
Proof. unfold exceeds. now rewrite ltb_spec, abs_spec, sub_spec. Qed.

(** Over aligned buffers [writeJoints] completes, with one write when the
    first loop leaves [changed] set and with no call otherwise. *)
Lemma writeJoints_Done (r : Robot) :
  length (joint_commands_ r) = length (joint_angles_ r) ->
  write_path_ready r = true ->
  ∃ changed,
    detect_change (joint_precision_ r) (joint_commands_ r) (joint_angles_ r) = Some changed
    ∧ writeJoints r = Done tt r (if changed then [backend_write r] else []).
Proof.
  intros Hlen Hready. unfold writeJoints, bind, this. cbv beta iota.
  destruct (detect_change_spec (joint_precision_ r) (joint_commands_ r) (joint_angles_ r))
    as [[-> _]|[-> _]]; [lia| |].
  - exists true. split; [reflexivity|]. cbn [negb].
    unfold backend_write, write_path_ready, via in *.
    destruct (use_dcm_ r); now rewrite Hready.
  - exists false. split; reflexivity.
Qed.

(** C1. Over aligned buffers, [writeJoints] makes one backend write, of the
    whole command vector and on the path the low-level flag selects, exactly
    when some joint's command differs from its measured angle by more than
    [joint_precision_]; otherwise it calls nothing and returns normally. *)
Theorem writeJoints_writes_iff_changed (r : Robot) :
  length (joint_commands_ r) = length (joint_angles_ r) ->
  write_path_ready r = true ->
  ∃ t,
    writeJoints r = Done tt r t
    ∧ (t = [backend_write r] ∨ t = [])
    ∧ (t = [backend_write r] ↔ some_joint_changed r)
    ∧ (t = [] ↔ ¬ some_joint_changed r).
Proof.
  intros Hlen Hready.
  destruct (writeJoints_Done r Hlen Hready) as (changed & Hchanged & ->).
  destruct (detect_change_spec (joint_precision_ r) (joint_commands_ r) (joint_angles_ r))
    as [[Hd Hc]|[Hd Hc]]; [lia| |]; rewrite Hd in Hchanged;
    injection Hchanged as <-; eexists; (split; [reflexivity|]).
  - repeat split; auto; try discriminate; intros; contradiction.
  - repeat split; auto; try discriminate; intros; contradiction.
Qed.

Lemma writeJoints_writes_iff_changed_witness :
  ∃ t,
    writeJoints (set_joint_commands_ [0.05; 0.2]%float sample_robot)
      = Done tt (set_joint_commands_ [0.05; 0.2]%float sample_robot) t
    ∧ (t = [DcmWriteJoints [0.05; 0.2]%float] ∨ t = [])
    ∧ (t = [DcmWriteJoints [0.05; 0.2]%float]
       ↔ some_joint_changed (set_joint_commands_ [0.05; 0.2]%float sample_robot))
    ∧ (t = [] ↔ ¬ some_joint_changed (set_joint_commands_ [0.05; 0.2]%float sample_robot)).
Proof.
  apply (writeJoints_writes_iff_changed (set_joint_commands_ [0.05; 0.2]%float sample_robot));
    reflexivity.
Defined.

(** The two runs the specification gives: precision 0.1 and measured angles
    [0; 0]. *)
Example writeJoints_one_joint_moved :
  trace (writeJoints (set_joint_commands_ [0.05; 0.2]%float sample_robot))
  = [DcmWriteJoints [0.05; 0.2]%float].
Proof. reflexivity. Qed.

Example writeJoints_no_joint_moved :
  writeJoints (set_joint_commands_ [0.05; 0.05]%float sample_robot)
  = Done tt (set_joint_commands_ [0.05; 0.05]%float sample_robot) [].
Proof. reflexivity. Qed.

(** A difference equal to the precision is no change, and a command below
    the angle counts by its distance. *)
Example writeJoints_at_the_precision :
  writeJoints (set_joint_precision_ 0.5 (set_joint_commands_ [0.5; 0]%float sample_robot))
  = Done tt (set_joint_precision_ 0.5 (set_joint_commands_ [0.5; 0]%float sample_robot)) [].
Proof. reflexivity. Qed.

Example writeJoints_command_below_angle :
  trace (writeJoints (set_joint_commands_ [-0.2; 0]%float sample_robot))
  = [DcmWriteJoints [-0.2; 0]%float].
Proof. reflexivity. Qed.

Example writeJoints_motion_path :
  trace (writeJoints (set_use_dcm_ false (set_joint_commands_ [0.05; 0.2]%float sample_robot)))
  = [MotionWriteJoints [0.05; 0.2]%float].
Proof. reflexivity. Qed.

Lemma writeJoints_keeps_limp : preserves limp_without_motion writeJoints.
Proof. unfold writeJoints. keep_all. Qed.

Lemma writeJoints_safe n m : safe (shaped n m) writeJoints.
Proof.
  intros r (Hready & Hn & Hm).
  pose proof Hready as (Hmem & Hmot & Hdiag & Hman & Hpath & Hlen & Hrange).
  destruct (writeJoints_Done r (eq_sym Hlen) Hpath) as (changed & _ & E).
  eexists _, _, _. split; [exact E|]. now split.
Qed.

(** ** The controller update and [publishJointStateFromAlMotion] *)

Lemma set_joint_commands_same r : set_joint_commands_ (joint_commands_ r) r = r.
Proof. now destruct r. Qed.

Lemma write_command_Done joint value r :
  handles_in_range r ->
  ∃ commands,
    write_command joint value r = Done tt (set_joint_commands_ commands r) []
    ∧ length commands = length (joint_commands_ r).
Proof.
  intros Hrange. unfold write_command, bind, this, assign. cbv beta iota.
  destruct (jnt_pos_interface_ r !! joint) as [h|] eqn:Hh.
  - rewrite bool_decide_eq_true_2 by (apply (Hrange joint h Hh)).
    eexists. split; [reflexivity|]. apply length_insert.
  - exists (joint_commands_ r). now rewrite set_joint_commands_same.
Qed.

Lemma write_commands_Done writes r :
  handles_in_range r ->
  ∃ commands,
    write_commands writes r = Done tt (set_joint_commands_ commands r) []
    ∧ length commands = length (joint_commands_ r).
Proof.
  revert r. induction writes as [|[joint value] writes IH]; intros r Hrange;
    cbn [write_commands].
  - exists (joint_commands_ r). now rewrite set_joint_commands_same.
  - destruct (write_command_Done joint value r Hrange) as (commands & E & Hlen).
    rewrite (bind_Done _ _ _ _ _ _ E).
    destruct (IH (set_joint_commands_ commands r)) as (commands' & -> & Hlen').
    + unfold handles_in_range in *. simpl. now rewrite Hlen.
    + exists commands'. split; [reflexivity|]. simpl in Hlen'. congruence.
Qed.

Lemma write_commands_keeps_limp writes :
  preserves limp_without_motion (write_commands writes).
Proof.
  induction writes as [|[joint value] writes IH]; cbn [write_commands].
  - apply triple_ret.
  - eapply triple_bind; [|intros ?; apply IH].
    unfold write_command. eapply triple_bind; [apply triple_this|intros r1].
    destruct (jnt_pos_interface_ r1 !! joint); [|apply triple_ret].
    destruct (bool_decide _); [|apply triple_fault].
    apply preserves_assign. intros r Hr. exact Hr.
Qed.

Lemma write_commands_safe n m writes : safe (shaped n m) (write_commands writes).
Proof.
  intros r ((Hmem & Hmot & Hdiag & Hman & Hpath & Hlen & Hrange) & Hn & Hm).
  destruct (write_commands_Done writes r Hrange) as (commands & E & Hcommands).
  eexists _, _, _. split; [exact E|].
  repeat split; try assumption; simpl; try congruence.
  unfold handles_in_range in *. simpl. now rewrite Hcommands.
Qed.

Lemma copy_positions_Done values i r :
  i + length values <= length (sensor_msgs.position (joint_states_topic_ r)) ->
  ∃ topic,
    copy_positions values i r = Done tt (set_joint_states_topic_ topic r) []
    ∧ length (sensor_msgs.position topic)
      = length (sensor_msgs.position (joint_states_topic_ r)).
Proof.
  revert i r. induction values as [|value values IH]; intros i r Hlen;
    cbn [copy_positions].
  - exists (joint_states_topic_ r). split; [now destruct r|reflexivity].
  - simpl in Hlen. unfold bind, this, assign. rewrite bool_decide_eq_true_2 by lia.
    cbv beta iota.
    match goal with
    | |- context [copy_positions values (S i) ?r1] =>
        destruct (IH (S i) r1) as (topic & -> & Htopic);
          [simpl; rewrite length_insert; lia|]
    end.
    exists topic. split; [reflexivity|].
    simpl in Htopic. now rewrite length_insert in Htopic.
Qed.

Lemma publishJointStateFromAlMotion_Done values r :
  motion_ r = true ->
  length values <= length (sensor_msgs.position (joint_states_topic_ r)) ->
  ∃ topic,
    publishJointStateFromAlMotion values r =
      Done tt (set_joint_states_topic_ topic r)
           [MotionGetAngles "Body"; PublishJointStates topic]
    ∧ length (sensor_msgs.position topic)
      = length (sensor_msgs.position (joint_states_topic_ r)).
Proof.
  intros Hm Hlen. unfold publishJointStateFromAlMotion.
  rewrite (bind_Done _ _ r tt r [MotionGetAngles "Body"]) by (unfold via; now rewrite Hm).
  destruct (copy_positions_Done values 0 r) as (topic & E & Htopic); [lia|].
  rewrite (bind_Done _ _ _ _ _ _ E). exists topic. split; [reflexivity|exact Htopic].
Qed.

Lemma publishJointStateFromAlMotion_keeps_limp values :
  preserves limp_without_motion (publishJointStateFromAlMotion values).
Proof.
  unfold publishJointStateFromAlMotion, preserves.
  eapply triple_bind; [apply triple_via|intros ?].
  eapply triple_bind; [|intros ?; keep_all].
  generalize 0. induction values as [|value values IH]; intros i; cbn [copy_positions].
  - apply triple_ret.
  - eapply triple_bind; [apply triple_this|intros r1].
    destruct (bool_decide _); [|apply triple_fault].
    eapply triple_bind; [apply preserves_assign; intros r Hr; exact Hr|intros ?].
    apply IH.
Qed.

Lemma publishJointStateFromAlMotion_safe n m values :
  length values <= m -> safe (shaped n m) (publishJointStateFromAlMotion values).
Proof.
  intros Hvalues r ((Hmem & Hmot & Hdiag & Hman & Hpath & Hlen & Hrange) & Hn & Hm).
  destruct (publishJointStateFromAlMotion_Done values r Hmot) as (topic & E & Htopic); [lia|].
  eexists _, _, _. split; [exact E|].
  repeat split; try assumption; simpl; congruence.
Qed.

(** ** [controllerLoop] *)

(** C7. An iteration that finds the connected flag false leaves the loop at
    once: the run returns to its caller with the object untouched, and the
    only call made is the log line, no read of the sensors and no write of
    commands, whatever cycles might have followed. *)
Theorem controllerLoop_exits_when_disconnected (c : Cycle) (cycles : list Cycle) (r : Robot) :
  is_connected_ r = false ->
  ∃ t,
    controllerLoop (c :: cycles) r = Done LoopEnded r t
    ∧ t = [RosInfo "Shutting down the main loop"]
    ∧ Forall (λ e, backend_io e = false) t.
Proof.
  intros Hoff. exists [RosInfo "Shutting down the main loop"].
  split; [|split; [reflexivity|repeat constructor]].
  cbn [controllerLoop]. destruct (ros_ok c); simpl; [|reflexivity].
  unfold bind, this. rewrite Hoff. reflexivity.
Qed.

Lemma controllerLoop_exits_when_disconnected_witness :
  ∃ t,
    controllerLoop [quiet_cycle; quiet_cycle] (stopped sample_robot)
      = Done LoopEnded (stopped sample_robot) t
    ∧ t = [RosInfo "Shutting down the main loop"]
    ∧ Forall (λ e, backend_io e = false) t.
Proof.
  apply (controllerLoop_exits_when_disconnected quiet_cycle [quiet_cycle] (stopped sample_robot)).
  reflexivity.
Defined.

(** While connected, the same cycles keep the loop going. *)
Example controllerLoop_runs_while_connected :
  ∃ r t, controllerLoop [quiet_cycle; quiet_cycle] sample_robot = Done LoopRunning r t
         ∧ List.filter backend_io t
           = [MemoryGetListData; MotionGetAngles "Body"; MemoryGetListData; MotionGetAngles "Body"].
Proof. eexists _, _. split; vm_compute; reflexivity. Qed.

(** C10, amended. When the diagnostics report not-ok in an iteration,
    [stopService] runs in it and lowers the connected flag, and the iteration
    goes on to the controller update.  If the update raises, the loop
    returns there, with no write and no joint-state publish.  Otherwise the
    same iteration still runs [writeJoints], which may write to the backend,
    then publishes the joint state and sleeps; the loop is left at the top
    of the next iteration, by the test of [ros::ok()] or by the test of the
    connected flag, before any further call. *)
Theorem controllerLoop_diagnostics_failure
    (c next : Cycle) (cycles : list Cycle) (r : Robot) :
  ready r -> answers_fit r c ->
  is_connected_ r = true -> ros_ok c = true -> diagnostics_ok c = false ->
  let r_read := after_read (joint_positions c) r in
  let before :=
    [PublishStiffness (stiffness_ r); MemoryGetListData; DiagnosticsPublish]
    ++ stop_calls r_read ++ [ManagerUpdate] in
  match update c with
  | UpdateThrows what =>
      controllerLoop (c :: next :: cycles) r
      = Done LoopReturned (stopped r_read) (before ++ [RosError what])
  | UpdateWrites writes =>
      ∃ r_upd topic t_write,
        write_commands writes (stopped r_read) = Done tt r_upd []
        ∧ writeJoints r_upd = Done tt r_upd t_write
        ∧ (t_write = [backend_write r_upd] ∨ t_write = [])
        ∧ controllerLoop (c :: next :: cycles) r
          = Done LoopEnded (set_joint_states_topic_ topic r_upd)
              (before ++ t_write
               ++ [MotionGetAngles "Body"; PublishJointStates topic; RateSleep;
                   RosInfo "Shutting down the main loop"])
        ∧ is_connected_ (set_joint_states_topic_ topic r_upd) = false
  end.
Proof.
  intros (Hmem & Hmot & Hdiag & Hman & Hpath & Hlen & Hrange) (Hvalues & Hdata)
    Hon Hros Hbad r_read before.
  assert (Eread : readJoints (joint_positions c) r = Done tt r_read [MemoryGetListData])
    by now apply readJoints_Done.
  remember (next :: cycles) as rest eqn:Hrest.
  cbn [controllerLoop]. rewrite Hros. cbn [negb].
  run_with (this_run r). rewrite Hon. cbn [negb].
  run_with (call_run (PublishStiffness (stiffness_ r)) r).
  run_with Eread.
  run_with (via_run diagnostics_ DiagnosticsPublish r_read Hdiag).
  rewrite Hbad. cbn [negb when].
  run_with (stopService_Done (stop_ok c) r_read).
  rewrite (stopped_with_motion r_read Hmot).
  set (r_stop := set_is_connected_ false (set_stiffness_ 0 r_read)).
  run_with (via_run manager_ ManagerUpdate r_stop Hman).
  destruct (update c) as [what|writes].
  - run_with (call_run (RosError what) r_stop). unfold ret. cbv beta iota.
    subst before. cbn [app]. rewrite <- !app_assoc. reflexivity.
  - assert (Hrange' : handles_in_range r_stop)
      by (unfold handles_in_range; simpl; rewrite Hvalues; exact Hrange).
    destruct (write_commands_Done writes r_stop Hrange') as (commands & Ewrite & Hcommands).
    set (r_upd := set_joint_commands_ commands r_stop) in *.
    destruct (writeJoints_Done r_upd) as (changed & _ & Ew).
    { simpl. simpl in Hcommands. lia. }
    { exact Hpath. }
    set (t_write := if changed then [backend_write r_upd] else []) in *.
    assert (Hwrite : t_write = [backend_write r_upd] ∨ t_write = [])
      by (subst t_write; destruct changed; auto).
    destruct (publishJointStateFromAlMotion_Done (position_data c) r_upd Hmot Hdata)
      as (topic & Epub & _).
    exists r_upd, topic, t_write. repeat (split; [assumption|]).
    split; [|reflexivity].
    run_with Ewrite. run_with Ew. run_with Epub.
    run_with (call_run RateSleep (set_joint_states_topic_ topic r_upd)).
    subst rest. cbn [controllerLoop]. destruct (negb (ros_ok next)).
    + run_with (call_run (RosInfo "Shutting down the main loop")
                  (set_joint_states_topic_ topic r_upd)).
      unfold ret. cbv beta iota.
      subst before. cbn [app]. rewrite <- !app_assoc. reflexivity.
    + run_with (this_run (set_joint_states_topic_ topic r_upd)). cbn.
      subst before. cbn [app]. rewrite <- !app_assoc. reflexivity.
Qed.

Lemma controllerLoop_diagnostics_failure_witness :
  ∃ r' t,
    controllerLoop [failing_cycle; quiet_cycle] sample_robot = Done LoopEnded r' t
    ∧ is_connected_ r' = false.
Proof.
  destruct (controllerLoop_diagnostics_failure failing_cycle quiet_cycle [] sample_robot)
    as (r_upd & topic & t_write & _ & _ & _ & E & Hoff).
  - exact sample_robot_ready.
  - split; [reflexivity|]. vm_compute. lia.
  - reflexivity.
  - reflexivity.
  - reflexivity.
  - eexists _, _. split; [exact E|exact Hoff].
Defined.

(** The run of that witness, call by call: the write to the backend comes
    after [stopService] has lowered the stiffness. *)
Example controllerLoop_diagnostics_failure_run :
  trace (controllerLoop [failing_cycle; quiet_cycle] sample_robot)
  = [PublishStiffness 1; MemoryGetListData; DiagnosticsPublish;
     RosInfo "naoqi_dcm_driver stopping the service...";
     MotionSetStiffnessArms 0 1; MotionRest; MotionStiffnessInterpolation ["Body"] 0 1;
     NodeHandleShutdown; RosShutdown; ManagerUpdate;
     DcmWriteJoints [0.5%float; 0.5%float]; MotionGetAngles "Body";
     PublishJointStates
       {| sensor_msgs.frame_id := "base_link";
          sensor_msgs.name := ["HeadYaw"; "KneePitch"; "WheelFL"];
          sensor_msgs.position := [1%float; 2%float; 3%float] |};
     RateSleep; RosInfo "Shutting down the main loop"].
Proof. vm_compute. reflexivity. Qed.

(** C10 as first worded fails where the update raises: the diagnostics
    report not-ok, [stopService] runs, the update raises, and the loop
    returns without [writeJoints] and without the joint-state publish. *)
Lemma controllerLoop_update_raises_after_diagnostics_failure :
  ready sample_robot
  ∧ answers_fit sample_robot throwing_cycle
  ∧ is_connected_ sample_robot = true
  ∧ ros_ok throwing_cycle = true
  ∧ diagnostics_ok throwing_cycle = false
  ∧ trace (controllerLoop [throwing_cycle; quiet_cycle] sample_robot)
    = [PublishStiffness 1; MemoryGetListData; DiagnosticsPublish;
       RosInfo "naoqi_dcm_driver stopping the service...";
       MotionSetStiffnessArms 0 1; MotionRest; MotionStiffnessInterpolation ["Body"] 0 1;
       NodeHandleShutdown; RosShutdown; ManagerUpdate; RosError "update failed"]
  ∧ ¬ rest_of_iteration_runs throwing_cycle quiet_cycle [] sample_robot.
Proof.
  split; [exact sample_robot_ready|].
  split; [split; [reflexivity|vm_compute; lia]|].
  do 3 (split; [reflexivity|]).
  split; [vm_compute; reflexivity|].
  intros (r' & t & topic & E & _ & _). vm_compute in E. discriminate.
Qed.

Lemma controllerLoop_keeps_limp cycles :
  preserves limp_without_motion (controllerLoop cycles).
Proof.
  induction cycles as [|c cycles IH]; cbn [controllerLoop].
  - apply triple_ret.
  - destruct (negb (ros_ok c)); [keep_all|].
    eapply triple_bind; [apply triple_this|intros r0].
    destruct (negb (is_connected_ r0)); [keep_all|].
    eapply triple_bind; [apply triple_call|intros ?].
    eapply triple_bind; [apply readJoints_keeps_limp|intros ?].
    eapply triple_bind; [apply triple_via|intros ?].
    eapply triple_bind; [apply preserves_when, stopService_keeps_limp|intros ?].
    eapply triple_bind; [apply triple_via|intros ?].
    destruct (update c); [keep_all|].
    eapply triple_bind; [apply write_commands_keeps_limp|intros ?].
    eapply triple_bind; [apply writeJoints_keeps_limp|intros ?].
    eapply triple_bind; [apply publishJointStateFromAlMotion_keeps_limp|intros ?].
    eapply triple_bind; [apply triple_call|intros ?].
    apply IH.
Qed.

(** Under the contract of the backend, answers of the sizes the object was
    connected with, the control loop never faults: over any cycles it runs
    to its exit, or is still running when they are used up, and the object
    stays ready. *)
Lemma controllerLoop_safe n m cycles :
  Forall (cycle_fits n m) cycles -> safe (shaped n m) (controllerLoop cycles).
Proof.
  induction 1 as [|c cycles [Hvalues Hdata] _ IH]; cbn [controllerLoop].
  - apply safe_ret.
  - destruct (negb (ros_ok c)); [apply safe_bind; [apply safe_call|intros; apply safe_ret]|].
    apply safe_bind; [apply safe_this|intros r0].
    destruct (negb (is_connected_ r0));
      [apply safe_bind; [apply safe_call|intros; apply safe_ret]|].
    apply safe_bind; [apply safe_call|intros _].
    apply safe_bind; [now apply readJoints_safe|intros _].
    apply safe_bind; [apply safe_via; intros r Hr; apply Hr|intros _].
    apply safe_bind; [apply safe_when, stopService_safe|intros _].
    apply safe_bind; [apply safe_via; intros r Hr; apply Hr|intros _].
    destruct (update c) as [what|writes];
      [apply safe_bind; [apply safe_call|intros; apply safe_ret]|].
    apply safe_bind; [apply write_commands_safe|intros _].
    apply safe_bind; [apply writeJoints_safe|intros _].
    apply safe_bind; [now apply publishJointStateFromAlMotion_safe|intros _].
    apply safe_bind; [apply safe_call|intros _].
    exact IH.
Qed.


(** ** The reachable objects *)

Lemma reachable_limp_without_motion r : reachable r -> limp_without_motion r.
Proof.
  induction 1 as [|a r b r' t _ IH E|ok r r' t _ IH E|cycles r e r' t _ IH E
                  |msg r r' t _ IH E].
  - intros _. reflexivity.
  - exact (connect_keeps_limp a r b r' t IH E).
  - exact (stopService_keeps_limp ok r tt r' t IH E).
  - exact (controllerLoop_keeps_limp cycles r e r' t IH E).
  - exact (commandVelocity_keeps_limp msg r tt r' t IH E).
Qed.

Lemma sample_robot_reachable : reachable sample_robot.
Proof.
  apply (reachable_connect sample_answers Robot_new true sample_robot
           (trace (connect sample_answers Robot_new)) reachable_new).
  vm_compute. reflexivity.
Qed.

(** C4. From every state, also one on which no motion wrapper was ever
    created, [stopService] completes and leaves the connected flag false,
    and a second call completes as well and leaves the object as the first
    call left it; the destructor is that same call.  The published
    stiffness is then 0 on every object that has a motion wrapper and on
    every object a program can reach. *)
Theorem stopService_idempotent (ok1 ok2 : bool) (r : Robot) :
  ∃ r1 t1 t2,
    stopService ok1 r = Done tt r1 t1
    ∧ stopService ok2 r1 = Done tt r1 t2
    ∧ Robot_delete ok2 r1 = Done tt r1 t2
    ∧ is_connected_ r1 = false
    ∧ (motion_ r = true ∨ reachable r -> stiffness_ r1 = 0%float).
Proof.
  exists (stopped r), (stop_calls r), (stop_calls (stopped r)).
  unfold Robot_delete. rewrite !stopService_Done, stopped_stopped.
  repeat split. intros Hr. unfold stopped.
  destruct (motion_ r) eqn:Hm; [reflexivity|].
  destruct Hr as [Hr|Hr]; [discriminate|].
  apply reachable_limp_without_motion in Hr. exact (Hr Hm).
Qed.

(** The stiffness clause needs its condition: a record with no motion
    wrapper and a stiffness other than 0, which no run produces, keeps that
    stiffness. *)
Example stopService_keeps_stiffness_without_motion :
  stiffness_ (final (stopService true (set_stiffness_ 0.5 Robot_new))) = 0.5%float.
Proof. reflexivity. Qed.

(** The case of an object on which nothing was created yet. *)
Lemma stopService_idempotent_witness :
  ∃ r1 t1 t2,
    stopService true Robot_new = Done tt r1 t1
    ∧ stopService true r1 = Done tt r1 t2
    ∧ Robot_delete true r1 = Done tt r1 t2
    ∧ is_connected_ r1 = false
    ∧ stiffness_ r1 = 0%float.
Proof.
  destruct (stopService_idempotent true true Robot_new)
    as (r1 & t1 & t2 & E1 & E2 & E3 & Hoff & Hlimp).
  exists r1, t1, t2. repeat (split; [assumption|]).
  apply Hlimp. right. apply reachable_new.
Defined.

(** * Further properties of the methods *)

(** ** [loadParams] *)

(** Run the first step of a method that always completes. *)
Ltac run_total :=
  lazymatch goal with
  | |- context [bind ?m _ ?r] =>
      let H := fresh "Htotal" in
      let E := fresh "E" in
      assert (H : total m) by (repeat total_step);
      destruct (H r) as (? & ? & ? & E); clear H; run_with E
  end.

Lemma split_spaces_not_nil s : split_spaces s ≠ [].
Proof.
  destruct s as [|c s]; cbn [split_spaces]; [discriminate|].
  destruct (Ascii.eqb c " "); [discriminate|].
  destruct (split_spaces s); discriminate.
Qed.

(** Only the empty string splits into the single empty piece. *)
Lemma split_spaces_single_empty s : split_spaces s = [""] ↔ s = "".
Proof.
  split; [|now intros ->].
  destruct s as [|c s]; [reflexivity|]. cbn [split_spaces].
  destruct (Ascii.eqb c " ").
  - intros [= E]. now apply split_spaces_not_nil in E.
  - destruct (split_spaces s); discriminate.
Qed.

Lemma ends_with_slash_append s : ends_with_slash (s ++ "/")%string = true.
Proof.
  unfold ends_with_slash.
  assert (Hlen : String.length (s ++ "/")%string = S (String.length s))
    by (induction s as [|c s IH]; simpl; [reflexivity|now rewrite IH]).
  rewrite Hlen. cbn [Nat.sub]. rewrite Nat.sub_0_r. clear Hlen.
  induction s as [|c s IH]; simpl; [reflexivity|exact IH].
Qed.

(** X1. Whatever the parameter server holds, [loadParams] completes and
    leaves at least one motor group: the pieces of the [motor_groups]
    parameter cut at its spaces, or "LArm" and "RArm" when the parameter is
    missing or empty. *)
Theorem loadParams_motor_groups (p : Params) (r : Robot) :
  ∃ r' t,
    loadParams p r = Done tt r' t
    ∧ motor_groups_ r' = groups_of (default "" (param_motor_groups p))
    ∧ motor_groups_ r' ≠ [].
Proof.
  unfold loadParams. do 9 run_total.
  set (tmp := default "" (param_motor_groups p)). run_on.
  cbn [motor_groups_ set_motor_groups_].
  unfold groups_of. destruct (decide (tmp = "")) as [Hempty|Hfull].
  - rewrite Hempty. cbn. eexists _, _. repeat split. discriminate.
  - rewrite (bool_decide_eq_false_2 (tmp = "")) by exact Hfull.
    pose proof (split_spaces_not_nil tmp) as Hnil.
    pose proof (split_spaces_single_empty tmp) as Hsingle.
    destruct (split_spaces tmp) as [|piece [|piece' pieces]] eqn:Hsplit; [congruence| |].
    + assert (piece ≠ "") by (intros ->; apply Hfull, Hsingle; reflexivity).
      cbn [length when]. rewrite bool_decide_eq_true_2 by reflexivity.
      rewrite (bool_decide_eq_false_2 (_ !! 0 = Some "")) by (cbn; congruence).
      cbn [when]. run_on. cbn. eexists _, _. repeat split. discriminate.
    + cbn. eexists _, _. repeat split. discriminate.
Qed.

(** Run the first step of a method that always completes and keeps [I]. *)
Ltac run_keeping I HI :=
  lazymatch goal with
  | |- context [bind ?m _ ?r] =>
      let Ht := fresh "Htotal" in
      let Hk := fresh "Hkeep" in
      let E := fresh "E" in
      assert (Ht : total m) by (repeat total_step);
      assert (Hk : preserves I m) by (repeat keep_step);
      destruct (Ht r) as (? & ? & ? & E); clear Ht;
      apply (Hk _ _ _ _ HI) in E as ?HI'; clear Hk HI; rename HI' into HI;
      run_with E
  end.

Lemma put_slash_Done r :
  ∃ r',
    when (bool_decide (0 < String.length (prefix_ r)))
      (when (negb (ends_with_slash (prefix_ r)))
         (assign (set_prefix_ (prefix_ r ++ "/")))) r = Done tt r' []
    ∧ prefix_ r' = slashed (prefix_ r).
Proof.
  unfold slashed, when, assign, ret.
  destruct (bool_decide _); [destruct (ends_with_slash _)|]; cbn [negb];
    eexists; split; reflexivity.
Qed.

(** [ends_with_slash] holds of the strings that are some string followed
    by a slash. *)
Lemma ends_with_slash_cons c s :
  s ≠ "" -> ends_with_slash (String c s) = ends_with_slash s.
Proof.
  intros Hs. destruct s as [|c' s]; [congruence|].
  unfold ends_with_slash. cbn [String.length Nat.sub String.get]. now rewrite Nat.sub_0_r.
Qed.

Lemma ends_with_slash_iff s :
  ends_with_slash s = true ↔ ∃ before, s = (before ++ "/")%string.
Proof.
  induction s as [|c s IH].
  - split; [discriminate|]. intros [[|? ?] E]; discriminate E.
  - destruct (decide (s = "")) as [->|Hs].
    + unfold ends_with_slash. cbn [String.length Nat.sub String.get].
      rewrite Ascii.eqb_eq. split.
      * intros ->. now exists "".
      * intros [[|c' before] E].
        -- now injection E.
        -- injection E as _ E. destruct before; discriminate E.
    + rewrite (ends_with_slash_cons c s Hs), IH. split.
      * intros [before ->]. now exists (String c before).
      * intros [[|c' before] E].
        -- injection E as _ E. congruence.
        -- injection E as _ E. now exists before.
Qed.

Lemma append_slash_longer s : (s ++ "/")%string ≠ s.
Proof.
  intros E. apply (f_equal String.length) in E.
  assert (Hlen : String.length (s ++ "/")%string = S (String.length s))
    by (clear E; induction s as [|c s IH]; simpl; [reflexivity|now rewrite IH]).
  lia.
Qed.

(** The prefix after the slash is put, without the test of the code. *)
Lemma slashed_cases given :
  (slashed given = given ∨ slashed given = (given ++ "/")%string)
  ∧ (slashed given = given ↔ given = "" ∨ ∃ before, given = (before ++ "/")%string)
  ∧ (slashed given = "" ∨ ∃ before, slashed given = (before ++ "/")%string).
Proof.
  unfold slashed. case_bool_decide as Hlen.
  - destruct (ends_with_slash given) eqn:Hslash.
    + apply ends_with_slash_iff in Hslash. repeat split; auto.
    + assert (Hnot : ¬ ∃ before, given = (before ++ "/")%string)
        by (rewrite <- ends_with_slash_iff, Hslash; discriminate).
      split; [now right|]. split; [|right; now exists given].
      split.
      * intros E. now apply append_slash_longer in E.
      * intros [->|Hends]; [simpl in Hlen; lia|contradiction].
  - assert (given = "") as -> by (destruct given; [reflexivity|simpl in Hlen; lia]).
    repeat split; auto.
Qed.

(** X2. [loadParams] leaves a topic prefix that is empty or is some string
    followed by a slash.  It is the [Prefix] parameter, or the prefix the
    object had when the parameter is missing, left as it is exactly when it
    is empty or ends with a slash already, and with one slash appended
    otherwise. *)
Theorem loadParams_prefix (p : Params) (r : Robot) :
  ∃ r' t,
    loadParams p r = Done tt r' t
    ∧ (prefix_ r' = default (prefix_ r) (Prefix p)
       ∨ prefix_ r' = (default (prefix_ r) (Prefix p) ++ "/")%string)
    ∧ (prefix_ r' = default (prefix_ r) (Prefix p)
       ↔ default (prefix_ r) (Prefix p) = ""
         ∨ ∃ before, default (prefix_ r) (Prefix p) = (before ++ "/")%string)
    ∧ (prefix_ r' = "" ∨ ∃ before, prefix_ r' = (before ++ "/")%string).
Proof.
  unfold loadParams.
  assert (HI : prefix_ r = prefix_ r) by reflexivity. revert HI.
  generalize r at 1 3. intros r0 HI.
  do 6 run_keeping (λ x : Robot, prefix_ x = prefix_ r) HI.
  set (given := default (prefix_ r) (Prefix p)).
  match goal with
  | |- context [bind (getParam (Prefix p) set_prefix_) _ ?r6] =>
      assert (Hgiven : ∃ r7, getParam (Prefix p) set_prefix_ r6 = Done tt r7 []
                             ∧ prefix_ r7 = given)
        by (subst given; destruct (Prefix p); eexists; split; try reflexivity; exact HI)
  end.
  destruct Hgiven as (r7 & E7 & Hgiven). run_with E7. run_with (this_run r7).
  destruct (put_slash_Done r7) as (r8 & E8 & Hslashed). run_with E8.
  rewrite Hgiven in Hslashed.
  do 4 run_keeping (λ x : Robot, prefix_ x = slashed given) Hslashed.
  match goal with
  | |- context [when ?c ?m ?r9] =>
      assert (Hlast : ∃ r10, when c m r9 = Done tt r10 [] ∧ prefix_ r10 = slashed given)
        by (destruct c; eexists; split; try reflexivity; exact Hslashed)
  end.
  destruct Hlast as (r10 & -> & Hlast).
  eexists _, _. split; [reflexivity|]. rewrite Hlast. apply slashed_cases.
Qed.

(** ** [stopService] *)

(** X3. [stopService] completes whatever the backend answers, and the
    answer changes nothing.  It calls the backend only when a motion wrapper
    exists: then it releases the arms exactly when the low-level path is in
    use, commands the rest pose exactly when the motor groups are the single
    group "Body", and requests stiffness 0 for the motor groups last.  It
    shuts the ROS node down whenever the node handle exists. *)
Theorem stopService_backend_calls (ok : bool) (r : Robot) :
  ∃ t,
    stopService ok r = Done tt (stopped r) t
    ∧ stopService (negb ok) r = stopService ok r
    ∧ List.filter backend_io t =
        (if motion_ r then
           (if use_dcm_ r then [MotionSetStiffnessArms 0 1] else [])
           ++ (if bool_decide (motor_groups_ r = ["Body"]) then [MotionRest] else [])
           ++ [MotionStiffnessInterpolation (motor_groups_ r) 0 1]
         else [])
    ∧ (MotionSetStiffnessArms 0 1 ∈ t ↔ motion_ r = true ∧ use_dcm_ r = true)
    ∧ (MotionRest ∈ t ↔ motion_ r = true ∧ motor_groups_ r = ["Body"])
    ∧ (MotionStiffnessInterpolation (motor_groups_ r) 0 1 ∈ t ↔ motion_ r = true)
    ∧ (RosShutdown ∈ t ↔ nhPtr_ r = true).
Proof.
  exists (stop_calls r). rewrite !stopService_Done.
  split; [reflexivity|]. split; [reflexivity|].
  unfold stop_calls.
  destruct (decide (motor_groups_ r = ["Body"])) as [Hbody|Hbody];
    [rewrite (bool_decide_eq_true_2 _ Hbody)|rewrite (bool_decide_eq_false_2 _ Hbody)];
    destruct (motion_ r), (use_dcm_ r), (nhPtr_ r);
    cbn [app List.filter backend_io]; (split; [reflexivity|]);
    rewrite ?elem_of_cons, ?elem_of_nil; repeat split; intros;
    repeat match goal with
           | H : _ ∨ _ |- _ => destruct H
           | H : _ ∧ _ |- _ => destruct H
           end; try discriminate; try contradiction; auto 10.
Qed.

(** ** [initializeControllers] *)

(** Decide the tests for a raise at index [i] when call [c] of that joint
    is the one that raises. *)
Ltac raise_tests i c :=
  repeat match goal with
         | |- context [bool_decide (Some (RaiseAtJoint i c) = Some (RaiseAtJoint i ?c'))] =>
             first
               [ rewrite (bool_decide_eq_true_2
                            (Some (RaiseAtJoint i c) = Some (RaiseAtJoint i c')))
                   by reflexivity
               | rewrite (bool_decide_eq_false_2
                            (Some (RaiseAtJoint i c) = Some (RaiseAtJoint i c')))
                   by discriminate ]
         end.

(** When call [c] for joint [k] raises, the loop has registered the names
    before it, and of joint [k] the state handle when its registration had
    returned; it stops there. *)
Lemma register_handles_raises k c joint names n i r :
  i <= k < i + n -> i + n <= length names -> names !! k = Some joint ->
  register_handles (Some (RaiseAtJoint k c)) names n i r =
    Done false
      (set_jnt_pos_interface_
         (registered position_handle_of (take (k - i) (drop i names)) i (jnt_pos_interface_ r))
         (set_jnt_state_interface_
            (let before :=
               registered state_handle_of (take (k - i) (drop i names)) i
                 (jnt_state_interface_ r) in
             if state_registered_before c then <[joint := state_handle_of joint k]> before
             else before)
            r))
      (registrations (take (k - i) (drop i names)) i
       ++ (if state_registered_before c then [RegisterStateHandle (state_handle_of joint k)]
           else [])).
Proof.
  revert i r. induction n as [|n IH]; intros i r Hk Hlen Hjoint; [lia|].
  cbn [register_handles].
  destruct (decide (k = i)) as [->|Hne].
  - rewrite Hjoint, Nat.sub_diag, take_0. cbn [registered registrations app].
    destruct c; raise_tests i NewStateHandle; raise_tests i RegisterState;
      raise_tests i GetHandle; raise_tests i NewPositionHandle;
      raise_tests i RegisterPosition;
      unfold bind, call, assign, this, ret; cbv beta iota zeta;
      cbn [jnt_state_interface_ set_jnt_state_interface_ state_registered_before];
      rewrite ?lookup_insert_eq; cbv beta iota; now destruct r.
  - destruct (lookup_lt_is_Some_2 names i) as [other Hother]; [lia|]. rewrite Hother.
    rewrite !bool_decide_eq_false_2 by congruence.
    replace (k - i) with (S (k - S i)) by lia.
    rewrite (drop_S _ _ _ Hother), firstn_cons.
    cbn [registered registrations].
    unfold bind, call, assign, this. cbv beta iota.
    cbn [jnt_state_interface_ set_jnt_state_interface_]. rewrite lookup_insert_eq.
    cbv beta iota. rewrite IH by (first [lia|exact Hjoint]). reflexivity.
Qed.

(** A raise outside the loop leaves the loop as it is without one. *)
Lemma register_handles_no_raise hw names n i r :
  (∀ k c, hw ≠ Some (RaiseAtJoint k c)) ->
  register_handles hw names n i r = register_handles None names n i r.
Proof.
  intros Hhw. revert i r. induction n as [|n IH]; intros i r; cbn [register_handles];
    [reflexivity|].
  destruct (names !! i) as [joint|]; [|reflexivity].
  rewrite !bool_decide_eq_false_2 by apply Hhw. no_raise.
  unfold bind, call, assign, this. cbv beta iota.
  destruct (_ !! joint); [|reflexivity]. now rewrite IH.
Qed.

(** X4. When a call inside the [try] raises a [ros::Exception],
    [initializeControllers] logs the error and returns [false], and what it
    did before stays.  The four buffers have the new length.  When the raise
    comes from a call for joint [k], the joints before [k] are registered,
    each for its own slot; of joint [k] the state handle is registered
    exactly when the raise came after its [registerHandle], and its position
    handle is not; [registerInterface] is not called.  When the raise comes
    from [registerInterface], every joint is registered, and the state
    interface is registered exactly when the raise came from the second
    call. *)
Theorem initializeControllers_partial
    (raise : Raise) (joints_names : list string) (r : Robot) :
  (Z.of_nat (length joints_names) < 2 ^ 31)%Z ->
  match raise with
  | RaiseAtJoint k c =>
      ∀ joint, joints_names !! k = Some joint ->
      ∃ r',
        initializeControllers (Some raise) joints_names r =
          Done false r'
            (registrations (take k joints_names) 0
             ++ (if state_registered_before c
                 then [RegisterStateHandle (state_handle_of joint k)] else [])
             ++ [RosError "Could not initialize hardware interfaces!"])
        ∧ length (joint_angles_ r') = length joints_names
        ∧ length (joint_velocities_ r') = length joints_names
        ∧ length (joint_efforts_ r') = length joints_names
        ∧ length (joint_commands_ r') = length joints_names
        ∧ jnt_state_interface_ r'
          = (let before :=
               registered state_handle_of (take k joints_names) 0 (jnt_state_interface_ r) in
             if state_registered_before c then <[joint := state_handle_of joint k]> before
             else before)
        ∧ jnt_pos_interface_ r'
          = registered position_handle_of (take k joints_names) 0 (jnt_pos_interface_ r)
        ∧ (joint ∉ take k joints_names ->
           jnt_pos_interface_ r' !! joint = jnt_pos_interface_ r !! joint)
  | RaiseAtInterface which =>
      initializeControllers (Some raise) joints_names r =
        Done false (initialized joints_names r)
          (registrations joints_names 0
           ++ match which with
              | StateInterface => []
              | PositionInterface => [RegisterInterface StateInterface]
              end
           ++ [RosError "Could not initialize hardware interfaces!"])
  end.
Proof.
  intros Hsmall. unfold initializeControllers.
  rewrite (int_of_size_small _ Hsmall), Nat2Z.id.
  destruct (Z.ltb_spec (Z.of_nat (length joints_names)) 0) as [Hneg|_]; [lia|].
  destruct raise as [k c|which]; [intros joint Hjoint|];
    unfold bind at 1 2 3 4, assign; cbv beta iota.
  - apply lookup_lt_Some in Hjoint as Hk.
    match goal with
    | |- context [bind (register_handles _ joints_names ?n 0) _ ?r1] =>
        rewrite (bind_Done _ _ r1 _ _ _
                   (register_handles_raises k c joint joints_names n 0 r1
                      (conj (Nat.le_0_l k) Hk) (Nat.le_refl _) Hjoint))
    end.
    rewrite drop_0, Nat.sub_0_r. cbv beta iota.
    unfold bind, call, ret. cbv beta iota. rewrite !app_nil_l, <- app_assoc.
    eexists. split; [reflexivity|].
    cbn [joint_angles_ joint_velocities_ joint_efforts_ joint_commands_
         jnt_state_interface_ jnt_pos_interface_
         set_jnt_pos_interface_ set_jnt_state_interface_ set_joint_commands_
         set_joint_efforts_ set_joint_velocities_ set_joint_angles_].
    rewrite !resize_length. repeat (split; [reflexivity|]).
    intros Hnot. now apply registered_lookup_other.
  - lazymatch goal with
    | |- context [bind (register_handles ?hw joints_names ?n 0) _ ?r1] =>
        rewrite (bind_Done _ _ r1 true
                   (set_jnt_pos_interface_
                      (registered position_handle_of (take n (drop 0 joints_names)) 0
                         (jnt_pos_interface_ r1))
                      (set_jnt_state_interface_
                         (registered state_handle_of (take n (drop 0 joints_names)) 0
                            (jnt_state_interface_ r1)) r1))
                   (registrations (take n (drop 0 joints_names)) 0))
          by (rewrite register_handles_no_raise by discriminate;
              apply register_handles_Done; lia)
    end.
    rewrite drop_0, firstn_all. cbv beta iota.
    destruct which;
      [rewrite bool_decide_eq_true_2 by reflexivity
      |rewrite bool_decide_eq_false_2 by discriminate;
       rewrite (bind_Done _ _ _ _ _ _ (call_run _ _));
       rewrite bool_decide_eq_true_2 by reflexivity];
      unfold bind, call, ret; cbv beta iota; rewrite ?app_nil_l, ?app_nil_r;
      cbn [app]; rewrite <- ?app_assoc; reflexivity.
Qed.

Lemma initializeControllers_partial_witness :
  ∃ r',
    initializeControllers (Some (RaiseAtJoint 1 GetHandle)) ["HeadYaw"; "KneePitch"] Robot_new =
      Done false r'
        (registrations ["HeadYaw"] 0
         ++ [RegisterStateHandle (state_handle_of "KneePitch" 1)]
         ++ [RosError "Could not initialize hardware interfaces!"])
    ∧ length (joint_commands_ r') = 2
    ∧ jnt_state_interface_ r' !! "KneePitch" = Some (state_handle_of "KneePitch" 1)
    ∧ jnt_pos_interface_ r' !! "KneePitch" = None.
Proof.
  destruct (initializeControllers_partial (RaiseAtJoint 1 GetHandle)
              ["HeadYaw"; "KneePitch"] Robot_new ltac:(simpl; lia) "KneePitch" eq_refl)
    as (r' & E & _ & _ & _ & Hc & Hstate & _ & Hother).
  exists r'. split; [exact E|]. split; [exact Hc|]. split.
  - rewrite Hstate. cbn [state_registered_before]. apply lookup_insert_eq.
  - rewrite Hother; [reflexivity|].
    cbn [take]. rewrite list_elem_of_singleton. discriminate.
Defined.

(** X5. [initializeControllers] removes no handle: a joint that was
    registered before and is not among the names now given keeps its
    handles.  When such a handle points to a slot at or beyond the new
    length, the position interface holds a handle that points outside
    [joint_commands_]. *)
Theorem initializeControllers_keeps_other_handles
    (joints_names : list string) (r : Robot) (joint : string) :
  (Z.of_nat (length joints_names) < 2 ^ 31)%Z ->
  joint ∉ joints_names ->
  ∃ r' t,
    initializeControllers None joints_names r = Done true r' t
    ∧ jnt_state_interface_ r' !! joint = jnt_state_interface_ r !! joint
    ∧ jnt_pos_interface_ r' !! joint = jnt_pos_interface_ r !! joint
    ∧ (∀ h, jnt_pos_interface_ r !! joint = Some h ->
         length joints_names <= jh_cmd h -> ¬ handles_in_range r').
Proof.
  intros Hsmall Hnot. eexists _, _.
  split; [now apply initializeControllers_Done|].
  unfold initialized, handles_in_range.
  cbn [joint_commands_ jnt_state_interface_ jnt_pos_interface_
       set_jnt_pos_interface_ set_jnt_state_interface_ set_joint_commands_
       set_joint_efforts_ set_joint_velocities_ set_joint_angles_].
  rewrite !registered_lookup_other by exact Hnot.
  repeat (split; [reflexivity|]).
  intros h Hh Hout Hrange. rewrite resize_length in Hrange.
  specialize (Hrange joint h). rewrite registered_lookup_other in Hrange by exact Hnot.
  specialize (Hrange Hh). simpl in Hrange. lia.
Qed.

Lemma initializeControllers_keeps_other_handles_witness :
  ∃ r' t,
    initializeControllers None ["HeadYaw"] sample_robot = Done true r' t
    ∧ jnt_pos_interface_ r' !! "KneePitch" = Some (position_handle_of "KneePitch" 1)
    ∧ length (joint_commands_ r') = 1
    ∧ ¬ handles_in_range r'.
Proof.
  destruct (initializeControllers_keeps_other_handles ["HeadYaw"] sample_robot "KneePitch")
    as (r' & t & E & _ & Hpos & Hout).
  - simpl. lia.
  - rewrite list_elem_of_singleton. discriminate.
  - exists r', t. split; [exact E|]. split; [rewrite Hpos; vm_compute; reflexivity|].
    split.
    + rewrite initializeControllers_Done in E by (simpl; lia).
      injection E as <- _. apply resize_length.
    + apply (Hout (position_handle_of "KneePitch" 1)); [vm_compute; reflexivity|simpl; lia].
Defined.

(** ** [ignoreMimicJoints] *)

Lemma filter_kept_again body_type (joints : list string) :
  filter (λ joint, is_mimic body_type joint = false)
    (filter (λ joint, is_mimic body_type joint = false) joints)
  = filter (λ joint, is_mimic body_type joint = false) joints.
Proof.
  induction joints as [|joint joints IH]; [reflexivity|].
  rewrite filter_cons. case_decide as Hkept; [|exact IH].
  rewrite filter_cons, decide_True by exact Hkept. now rewrite IH.
Qed.

Lemma filter_kept_all body_type (joints : list string) :
  filter (λ joint, is_mimic body_type joint = false) joints = joints
  ↔ ∀ joint, joint ∈ joints -> is_mimic body_type joint = false.
Proof.
  induction joints as [|joint joints IH].
  - split; [intros _ j Hj; now apply elem_of_nil in Hj|reflexivity].
  - rewrite filter_cons. case_decide as Hkept.
    + split.
      * intros [= E] j [->|Hj]%elem_of_cons; [exact Hkept|]. now apply IH.
      * intros Hall. f_equal. apply IH. intros j Hj. apply Hall. now right.
    + split.
      * intros E. pose proof (length_filter (λ j, is_mimic body_type j = false) joints) as Hlen.
        rewrite E in Hlen. simpl in Hlen. lia.
      * intros Hall. destruct Hkept. apply Hall. now left.
Qed.

(** X6. Filtering the names [ignoreMimicJoints] has left changes nothing,
    and a list is returned as it was given exactly when none of its names
    is excluded; the list never grows. *)
Theorem ignoreMimicJoints_idempotent (body_type : string) (joints : list string) :
  ∃ kept,
    ignoreMimicJoints body_type joints = Some kept
    ∧ ignoreMimicJoints body_type kept = Some kept
    ∧ (kept = joints ↔ ∀ joint, joint ∈ joints -> ¬ excluded body_type joint)
    ∧ length kept <= length joints.
Proof.
  eexists. split; [apply ignoreMimicJoints_Some|].
  split; [rewrite ignoreMimicJoints_Some; f_equal; apply filter_kept_again|].
  split; [|apply length_filter].
  rewrite filter_kept_all. split; intros Hall joint Hjoint.
  - rewrite <- is_mimic_excluded, (Hall joint Hjoint). discriminate.
  - specialize (Hall joint Hjoint). rewrite <- is_mimic_excluded in Hall.
    now destruct (is_mimic body_type joint).
Qed.

(** ** [readJoints] *)

Lemma overwrite_take values v :
  length v <= length values -> overwrite values (length v) 0 v = take (length v) values.
Proof.
  intros Hlen. apply list_eq. intros k. rewrite overwrite_lookup by lia.
  rewrite lookup_take. case_decide.
  - now rewrite bool_decide_eq_true_2 by lia.
  - rewrite bool_decide_eq_false_2 by lia. apply lookup_ge_None_2. lia.
Qed.

(** X7. Over aligned buffers of N slots, when the backend answers with N
    values or more, [readJoints] completes: it stores the first N values as
    the measured angles and as the commands, and the values beyond the N-th
    are dropped without a word, no length being compared. *)
Theorem readJoints_answer_length (values : list float) (r : Robot) :
  memory_ r = true ->
  length (joint_angles_ r) = length (joint_commands_ r) ->
  length (joint_commands_ r) <= length values ->
  ∃ r',
    readJoints values r = Done tt r' [MemoryGetListData]
    ∧ r' = after_read (take (length (joint_commands_ r)) values) r
    ∧ joint_angles_ r' = take (length (joint_commands_ r)) values
    ∧ joint_commands_ r' = take (length (joint_commands_ r)) values.
Proof.
  intros Hmem Hangles Hlen. eexists. split; [|repeat split].
  unfold readJoints, bind, via, this. rewrite Hmem.
  rewrite readJoints_loop_Done by lia.
  rewrite overwrite_take by lia. rewrite <- Hangles, overwrite_take by lia. reflexivity.
Qed.

Lemma readJoints_answer_length_witness :
  ∃ r',
    readJoints [0.5; 0.25; 4]%float sample_robot = Done tt r' [MemoryGetListData]
    ∧ joint_angles_ r' = [0.5; 0.25]%float
    ∧ joint_commands_ r' = [0.5; 0.25]%float.
Proof.
  destruct (readJoints_answer_length [0.5; 0.25; 4]%float sample_robot)
    as (r' & E & _ & Ha & Hc); [reflexivity|reflexivity|vm_compute; lia|].
  exists r'. split; [exact E|]. split; [exact Ha|exact Hc].
Defined.

(** ** [publishJointStateFromAlMotion] *)

Lemma set_joint_states_topic_same r : set_joint_states_topic_ (joint_states_topic_ r) r = r.
Proof. now destruct r. Qed.

(** In bounds, the loop overwrites the positions from [i] on, one per value. *)
Lemma copy_positions_in_bounds values i r :
  i + length values <= length (sensor_msgs.position (joint_states_topic_ r)) ->
  ∃ topic,
    copy_positions values i r = Done tt (set_joint_states_topic_ topic r) []
    ∧ sensor_msgs.frame_id topic = sensor_msgs.frame_id (joint_states_topic_ r)
    ∧ sensor_msgs.name topic = sensor_msgs.name (joint_states_topic_ r)
    ∧ sensor_msgs.position topic
      = take i (sensor_msgs.position (joint_states_topic_ r)) ++ values
        ++ drop (i + length values) (sensor_msgs.position (joint_states_topic_ r)).
Proof.
  revert i r. induction values as [|value values IH]; intros i r Hlen;
    cbn [copy_positions].
  - exists (joint_states_topic_ r). rewrite set_joint_states_topic_same.
    repeat (split; [reflexivity|]). now rewrite Nat.add_0_r, app_nil_l, take_drop.
  - simpl in Hlen. unfold bind, this, assign. rewrite bool_decide_eq_true_2 by lia.
    cbv beta iota.
    match goal with
    | |- context [copy_positions values (S i) ?r1] =>
        destruct (IH (S i) r1) as (topic & -> & Hframe & Hname & Hposition);
          [simpl; rewrite length_insert; lia|]
    end.
    exists topic. split; [reflexivity|]. simpl in Hframe, Hname, Hposition.
    repeat (split; [assumption|]). rewrite Hposition.
    destruct (lookup_lt_is_Some_2 (sensor_msgs.position (joint_states_topic_ r)) i)
      as [old Hold]; [lia|].
    rewrite (take_S_r (<[i:=value]> _) i value)
      by (apply list_lookup_insert_eq; lia).
    rewrite take_insert_ge by lia. rewrite drop_insert_lt by lia.
    rewrite <- app_assoc. cbn [app length].
    now replace (i + S (length values)) with (S i + length values) by lia.
Qed.

(** X8. When [getAngles] answers with no more values than the joint-state
    message has positions, [publishJointStateFromAlMotion] completes and
    publishes the message with the answer in its first positions; the
    positions beyond the answer keep the values they had, and the names are
    untouched. *)
Theorem publishJointStateFromAlMotion_answer_length (values : list float) (r : Robot) :
  motion_ r = true ->
  length values <= length (sensor_msgs.position (joint_states_topic_ r)) ->
  ∃ topic,
    publishJointStateFromAlMotion values r =
      Done tt (set_joint_states_topic_ topic r)
           [MotionGetAngles "Body"; PublishJointStates topic]
    ∧ sensor_msgs.name topic = sensor_msgs.name (joint_states_topic_ r)
    ∧ sensor_msgs.position topic
      = values ++ drop (length values) (sensor_msgs.position (joint_states_topic_ r)).
Proof.
  intros Hm Hlen. unfold publishJointStateFromAlMotion.
  rewrite (bind_Done _ _ r tt r [MotionGetAngles "Body"]) by (unfold via; now rewrite Hm).
  destruct (copy_positions_in_bounds values 0 r) as (topic & E & _ & Hname & Hposition);
    [simpl; exact Hlen|].
  rewrite (bind_Done _ _ _ _ _ _ E). exists topic.
  split; [reflexivity|]. split; [exact Hname|]. rewrite Hposition. now rewrite take_0.
Qed.

Lemma publishJointStateFromAlMotion_answer_length_witness :
  ∃ topic,
    publishJointStateFromAlMotion [1; 2]%float sample_robot =
      Done tt (set_joint_states_topic_ topic sample_robot)
           [MotionGetAngles "Body"; PublishJointStates topic]
    ∧ sensor_msgs.name topic = sensor_msgs.name (joint_states_topic_ sample_robot)
    ∧ sensor_msgs.position topic
      = [1; 2]%float
        ++ drop 2 (sensor_msgs.position (joint_states_topic_ sample_robot)).
Proof.
  apply (publishJointStateFromAlMotion_answer_length [1; 2]%float sample_robot eq_refl).
  vm_compute. lia.
Defined.

(** ** [controllerLoop] and [run] *)

(** X9. The loop leaves at its first test, with the log line as its only
    call and the object untouched, exactly when [ros::ok()] is false or the
    connected flag is down. *)
Theorem controllerLoop_first_exit (c : Cycle) (cycles : list Cycle) (r : Robot) :
  controllerLoop (c :: cycles) r = Done LoopEnded r [RosInfo "Shutting down the main loop"]
  ↔ ros_ok c = false ∨ is_connected_ r = false.
Proof.
  cbn [controllerLoop]. destruct (ros_ok c); cbn [negb]; [|split; [now left|reflexivity]].
  run_with (this_run r). destruct (is_connected_ r); cbn [negb];
    [|split; [now right|reflexivity]].
  run_with (call_run (PublishStiffness (stiffness_ r)) r).
  split; [|intros [|]; discriminate].
  match goal with
  | |- context [match bind ?m ?k ?r1 with _ => _ end] => destruct (bind m k r1)
  end; cbn [app]; intros E; discriminate E.
Qed.





(** X12. Under the contract of the backend, answers of the sizes the
    object was connected with in every cycle, [run] never faults: whatever
    the diagnostics report and whether or not the update raises, the loop
    runs to an exit or is still running when the cycles are used up, and the
    object is ready as before, with buffers of the same sizes. *)
Theorem run_never_faults (n m : nat) (cycles : list Cycle) (r : Robot) :
  shaped n m r -> Forall (cycle_fits n m) cycles ->
  ∃ e r' t, run cycles r = Done e r' t ∧ shaped n m r'.
Proof.
  intros Hshaped Hfit. exact (controllerLoop_safe n m cycles Hfit r Hshaped).
Qed.

Lemma run_never_faults_witness :
  ∃ e r' t,
    run [quiet_cycle; failing_cycle; throwing_cycle] sample_robot = Done e r' t
    ∧ shaped 2 3 r'.
Proof.
  apply (run_never_faults 2 3 [quiet_cycle; failing_cycle; throwing_cycle] sample_robot).
  - split; [exact sample_robot_ready|]. split; reflexivity.
  - repeat constructor; vm_compute; lia.
Defined.

(** ** The reachable objects, again *)

Lemma well_formed_insert_angles i value r :
  well_formed r -> well_formed (set_joint_angles_ (<[i := value]> (joint_angles_ r)) r).
Proof.
  intros (Hnh & Hcmd & Ha & Hv & He). repeat split; simpl; rewrite ?length_insert; assumption.
Qed.

Lemma well_formed_insert_commands i value r :
  well_formed r -> well_formed (set_joint_commands_ (<[i := value]> (joint_commands_ r)) r).
Proof.
  intros (Hnh & Hcmd & Ha & Hv & He). repeat split; simpl; rewrite ?length_insert; assumption.
Qed.

Lemma stopService_keeps_well_formed ok : preserves well_formed (stopService ok).
Proof.
  intros r a r' t HI E. rewrite stopService_Done in E. inversion E; subst.
  unfold stopped. destruct (motion_ r); exact HI.
Qed.

Lemma readJoints_keeps_well_formed values : preserves well_formed (readJoints values).
Proof.
  unfold readJoints, preserves.
  eapply triple_bind; [apply triple_via|intros ?].
  eapply triple_bind; [apply triple_this|intros r0].
  generalize (length (joint_commands_ r0)) 0. clear.
  intros n. induction n as [|n IH]; intros i; cbn [readJoints_loop].
  - apply triple_ret.
  - destruct (values !! i); [|apply triple_fault].
    eapply triple_bind; [apply triple_this|intros r1].
    destruct (bool_decide _); [|apply triple_fault].
    eapply triple_bind;
      [apply preserves_assign; intros r Hr; now apply well_formed_insert_angles|intros ?].
    eapply triple_bind;
      [apply preserves_assign; intros r Hr; now apply well_formed_insert_commands|intros ?].
    apply IH.
Qed.

Lemma write_commands_keeps_well_formed writes : preserves well_formed (write_commands writes).
Proof.
  induction writes as [|[joint value] writes IH]; cbn [write_commands].
  - apply triple_ret.
  - eapply triple_bind; [|intros ?; apply IH].
    intros r a r' t Hr E.
    unfold write_command, bind, this, assign, ret, fault in E. cbv beta iota in E.
    destruct (jnt_pos_interface_ r !! joint); [destruct (bool_decide _)|];
      inversion E; subst; try exact Hr.
    now apply well_formed_insert_commands.
Qed.

Lemma publishJointStateFromAlMotion_keeps_well_formed values :
  preserves well_formed (publishJointStateFromAlMotion values).
Proof.
  unfold publishJointStateFromAlMotion, preserves.
  eapply triple_bind; [apply triple_via|intros ?].
  eapply triple_bind; [|intros ?; keep_all].
  generalize 0. induction values as [|value values IH]; intros i; cbn [copy_positions].
  - apply triple_ret.
  - eapply triple_bind; [apply triple_this|intros r1].
    destruct (bool_decide _); [|apply triple_fault].
    eapply triple_bind; [apply preserves_assign; intros r Hr; exact Hr|intros ?].
    apply IH.
Qed.

Lemma controllerLoop_keeps_well_formed cycles :
  preserves well_formed (controllerLoop cycles).
Proof.
  induction cycles as [|c cycles IH]; cbn [controllerLoop].
  - apply triple_ret.
  - destruct (negb (ros_ok c)); [keep_all|].
    eapply triple_bind; [apply triple_this|intros r0].
    destruct (negb (is_connected_ r0)); [keep_all|].
    eapply triple_bind; [apply triple_call|intros ?].
    eapply triple_bind; [apply readJoints_keeps_well_formed|intros ?].
    eapply triple_bind; [apply triple_via|intros ?].
    eapply triple_bind; [apply preserves_when, stopService_keeps_well_formed|intros ?].
    eapply triple_bind; [apply triple_via|intros ?].
    destruct (update c); [keep_all|].
    eapply triple_bind; [apply write_commands_keeps_well_formed|intros ?].
    eapply triple_bind; [unfold writeJoints; keep_all|intros ?].
    eapply triple_bind; [apply publishJointStateFromAlMotion_keeps_well_formed|intros ?].
    eapply triple_bind; [apply triple_call|intros ?].
    apply IH.
Qed.

(** [initializeControllers] aligns the buffers, whatever their lengths were
    and also when it returns [false]: the four of them are resized before
    the first handle is made. *)
Lemma initializeControllers_aligns hw names :
  triple (λ r, nhPtr_ r = true ∧ use_cmd_vel_ r = false)
    (initializeControllers hw names) (λ _, well_formed).
Proof.
  unfold initializeControllers. destruct (_ <? _)%Z; [apply triple_fault|].
  set (n := Z.to_nat (int_of_size (length names))).
  set (sized := λ (k : nat) (r : Robot),
    nhPtr_ r = true ∧ use_cmd_vel_ r = false
    ∧ (1 <= k -> length (joint_angles_ r) = n)
    ∧ (2 <= k -> length (joint_velocities_ r) = n)
    ∧ (3 <= k -> length (joint_efforts_ r) = n)
    ∧ (4 <= k -> length (joint_commands_ r) = n)).
  apply triple_post with (Q := λ _, sized 4).
  2: { intros _ r (Hnh & Hcmd & Ha & Hv & He & Hc). repeat split; try assumption;
         rewrite ?Ha, ?Hv, ?He, ?Hc by lia; reflexivity. }
  eapply triple_bind;
    [apply (triple_assign _ _ (sized 1)); intros r [Hnh Hcmd]; repeat split;
       try assumption; simpl; intros; try lia; apply resize_length|intros ?].
  eapply triple_bind;
    [apply (triple_assign _ _ (sized 2)); intros r (Hnh & Hcmd & Ha & _); repeat split;
       try assumption; simpl; intros; try lia; try apply resize_length; auto|intros ?].
  eapply triple_bind;
    [apply (triple_assign _ _ (sized 3)); intros r (Hnh & Hcmd & Ha & Hv & _); repeat split;
       try assumption; simpl; intros; try lia; try apply resize_length; auto|intros ?].
  eapply triple_bind;
    [apply (triple_assign _ _ (sized 4)); intros r (Hnh & Hcmd & Ha & Hv & He & _);
       repeat split; try assumption; simpl; intros; try lia; try apply resize_length;
       auto|intros ?].
  eapply triple_bind;
    [apply register_handles_keeps; intros v r Hr; exact Hr|intros ok].
  destruct ok; keep_all.
Qed.

Lemma connect_keeps_well_formed a : preserves well_formed (connect a).
Proof.
  unfold connect, preserves.
  eapply triple_bind; [apply preserves_assign; intros r Hr; exact Hr|intros ?].
  eapply triple_bind; [unfold loadParams; keep_all|intros ?].
  eapply triple_bind; [apply triple_this|intros r1].
  eapply triple_bind; [keep_all|intros ?].
  eapply triple_bind; [keep_all|intros ?].
  eapply triple_bind; [keep_all|intros ?].
  eapply triple_bind; [keep_all|intros ?].
  eapply triple_bind; [destruct (bool_decide _); keep_all|intros ?].
  eapply triple_bind; [apply triple_via|intros ?].
  destruct (negb _).
  - keep_all. apply stopService_keeps_well_formed.
  - eapply triple_bind; [keep_all|intros ?].
    eapply triple_bind; [keep_all|intros ?].
    destruct (ignoreMimicJoints _ _); [|apply triple_fault].
    do 5 (eapply triple_bind; [keep_all|intros ?]).
    eapply triple_bind; [apply preserves_assign; intros r Hr; exact Hr|intros ?].
    eapply triple_bind; [keep_all|intros ?].
    do 2 (eapply triple_bind; [apply preserves_assign; intros r Hr; exact Hr|intros ?]).
    eapply triple_bind; [apply subscribe_keeps; intros v r Hr; exact Hr|intros ?].
    eapply triple_bind; [unfold setStiffness; keep_all|intros ok].
    destruct (negb ok); [apply triple_ret|].
    destruct (manager_throws a); [keep_all|].
    eapply triple_bind; [apply preserves_assign; intros r Hr; exact Hr|intros ?].
    eapply triple_bind;
      [eapply triple_post;
         [intros r b r' t Hr; apply (initializeControllers_aligns _ _ r b r' t);
            split; apply Hr
         |intros ? ? Hr; exact Hr]
      |intros ok'].
    destruct (negb ok'); keep_all.
Qed.

Lemma reachable_well_formed r : reachable r -> well_formed r.
Proof.
  induction 1 as [|a r b r' t _ IH E|ok r r' t _ IH E|cycles r e r' t _ IH E
                  |msg r r' t _ IH E].
  - repeat split.
  - exact (connect_keeps_well_formed a r b r' t IH E).
  - exact (stopService_keeps_well_formed ok r tt r' t IH E).
  - exact (controllerLoop_keeps_well_formed cycles r e r' t IH E).
  - assert (Hkeep : preserves well_formed (commandVelocity msg))
      by (unfold commandVelocity; keep_all).
    exact (Hkeep r tt r' t IH E).
Qed.

(** X13. On every object a program can reach, whatever the backend
    answered on the way and whichever calls of [connect] failed, the four
    buffers of angles, velocities, efforts and commands have one length. *)
Theorem reachable_buffers_aligned (r : Robot) :
  reachable r ->
  length (joint_angles_ r) = length (joint_commands_ r)
  ∧ length (joint_velocities_ r) = length (joint_commands_ r)
  ∧ length (joint_efforts_ r) = length (joint_commands_ r).
Proof. intros Hr. apply reachable_well_formed in Hr as (_ & _ & Haligned). exact Haligned. Qed.

Lemma reachable_buffers_aligned_witness :
  length (joint_angles_ sample_robot) = length (joint_commands_ sample_robot)
  ∧ length (joint_velocities_ sample_robot) = length (joint_commands_ sample_robot)
  ∧ length (joint_efforts_ sample_robot) = length (joint_commands_ sample_robot).
Proof. exact (reachable_buffers_aligned sample_robot sample_robot_reachable). Defined.

(** X14. No method sets [use_cmd_vel_] or releases the node handle.  So on
    every reachable object [subscribe] completes and advertises the
    diagnostics, the stiffness and the joint states, in that order, and
    nothing else: it never subscribes [commandVelocity] to "cmd_vel". *)
Theorem reachable_subscribe_advertises (r : Robot) :
  reachable r ->
  use_cmd_vel_ r = false
  ∧ subscribe r =
      Done tt (set_stiffness_ 1 r)
        [Advertise (prefix_ r ++ "diagnostics"); Advertise (prefix_ r ++ "stiffnesses");
         Advertise "/joint_states"].
Proof.
  intros Hr. apply reachable_well_formed in Hr as (Hnh & Hcmd & _).
  split; [exact Hcmd|].
  unfold subscribe. run_with (this_run r). rewrite Hcmd. cbn [when]. run_on.
  rewrite (via_run nhPtr_ _ (set_stiffness_ 1 r) Hnh). reflexivity.
Qed.

Lemma reachable_subscribe_advertises_witness :
  use_cmd_vel_ sample_robot = false
  ∧ subscribe sample_robot =
      Done tt (set_stiffness_ 1 sample_robot)
        [Advertise (prefix_ sample_robot ++ "diagnostics");
         Advertise (prefix_ sample_robot ++ "stiffnesses");
         Advertise "/joint_states"].
Proof. exact (reachable_subscribe_advertises sample_robot sample_robot_reachable). Defined.

(** ** [connect] *)

Lemma register_handles_total hw names n i :
  i + n <= length names -> total (register_handles hw names n i).
Proof.
  revert i. induction n as [|n IH]; intros i Hlen r; cbn [register_handles].
  - apply total_ret.
  - destruct (lookup_lt_is_Some_2 names i) as [joint Hjoint]; [lia|]. rewrite Hjoint.
    destruct (bool_decide (hw = Some (RaiseAtJoint i NewStateHandle))); [apply total_ret|].
    destruct (bool_decide (hw = Some (RaiseAtJoint i RegisterState))); [apply total_ret|].
    destruct (bool_decide (hw = Some (RaiseAtJoint i GetHandle)));
      [unfold bind, call, assign, ret; now eexists _, _, _|].
    destruct (bool_decide (hw = Some (RaiseAtJoint i NewPositionHandle)));
      [unfold bind, call, assign, this, ret; cbv beta iota;
       cbn [jnt_state_interface_ set_jnt_state_interface_]; rewrite lookup_insert_eq;
       now eexists _, _, _|].
    destruct (bool_decide (hw = Some (RaiseAtJoint i RegisterPosition)));
      [unfold bind, call, assign, this, ret; cbv beta iota;
       cbn [jnt_state_interface_ set_jnt_state_interface_]; rewrite lookup_insert_eq;
       now eexists _, _, _|].
    unfold bind, call, assign, this. cbv beta iota.
    cbn [jnt_state_interface_ set_jnt_state_interface_]. rewrite lookup_insert_eq.
    cbv beta iota.
    match goal with
    | |- context [register_handles hw names n (S i) ?r1] =>
        destruct (IH (S i) ltac:(lia) r1) as (b & r' & t & ->)
    end.
    now eexists _, _, _.
Qed.

(** Lists of fewer than 2^31 names: [initializeControllers] always returns. *)
Lemma initializeControllers_total hw names :
  (Z.of_nat (length names) < 2 ^ 31)%Z -> total (initializeControllers hw names).
Proof.
  intros Hsmall. unfold initializeControllers.
  rewrite (int_of_size_small _ Hsmall), Nat2Z.id.
  destruct (Z.ltb_spec (Z.of_nat (length names)) 0) as [Hneg|_]; [lia|].
  do 4 (apply total_bind; [apply total_assign|intros ?]).
  apply total_bind; [apply register_handles_total; lia|intros ok].
  destruct ok; [|repeat total_step].
  destruct (bool_decide (hw = Some (RaiseAtInterface StateInterface))); [repeat total_step|].
  apply total_bind; [apply total_call|intros ?].
  destruct (bool_decide (hw = Some (RaiseAtInterface PositionInterface))); repeat total_step.
Qed.

(** X15. On an object that has its node handle, [connect] always returns,
    whatever the backend answers: it never faults.  Afterwards
    [isConnected] answers whether the robot was found awake, also when
    [connect] has returned [false], and the published stiffness is 1 when
    it was awake and 0 when it was not.  [connect] returns [true] only when
    the robot was awake, the stiffness request was accepted and the
    controller manager was built, and it does return [true] then unless a
    handle registration raises. *)
Theorem connect_outcome (a : ConnectAnswers) (r : Robot) :
  nhPtr_ r = true ->
  (Z.of_nat (length (body_names_from_group a)) < 2 ^ 31)%Z ->
  ∃ b r' t,
    connect a r = Done b r' t
    ∧ isConnected r' = Done (robot_is_wake_up a) r' []
    ∧ stiffness_ r' = (if robot_is_wake_up a then 1 else 0)%float
    ∧ (b = true ->
       robot_is_wake_up a = true ∧ stiffness_interpolation_ok a = true
       ∧ manager_throws a = false)
    ∧ (robot_is_wake_up a = true -> stiffness_interpolation_ok a = true ->
       manager_throws a = false -> hw_fail a = None -> b = true).
Proof.
  intros Hnh Hsmall. unfold connect.
  run_with (assign_run (set_is_connected_ false) r).
  destruct (loadParams_total (params a) (set_is_connected_ false r)) as ([] & r1 & t1 & E1).
  assert (Hnh1 : nhPtr_ r1 = true).
  { assert (Hkeep : preserves (λ x, nhPtr_ x = true) (loadParams (params a)))
      by (unfold loadParams; keep_all).
    exact (Hkeep (set_is_connected_ false r) _ _ _ Hnh E1). }
  run_with E1. run_with (this_run r1).
  rewrite ignoreMimicJoints_Some.
  set (joints_names := filter _ (body_names_from_group a)).
  assert (Hnames : (Z.of_nat (length joints_names) < 2 ^ 31)%Z).
  { pose proof (length_filter (λ joint, is_mimic (body_type_ r1) joint = false)
                 (body_names_from_group a)). subst joints_names. lia. }
  destruct (use_dcm_ r1) eqn:Hdcm; cbn [when negb]; run_on;
    (destruct (bool_decide (length _ = 1)); [destruct (bool_decide (_ !! 0 = _))|]);
    cbn [when]; run_on;
    destruct (robot_is_wake_up a); cbn [negb]; run_on.
  all: try (rewrite (bind_Done _ _ _ _ _ _ (stopService_Done _ _)); run_on;
            unfold ret; cbv beta iota;
            rewrite stopped_with_motion by reflexivity;
            eexists _, _, _; split; [reflexivity|];
            split; [reflexivity|]; split; [reflexivity|];
            split; [discriminate|discriminate]).
  all: lazymatch goal with
    | |- context [bind subscribe _ ?r2] =>
        destruct (subscribe_Done r2 Hnh1) as (ts & Es); run_with Es
    end;
    lazymatch goal with
    | |- context [bind (setStiffness ?ok 1) _ ?r2] =>
        rewrite (bind_Done _ _ _ _ _ _ (setStiffness_Done ok 1 r2 eq_refl))
    end;
    destruct (stiffness_interpolation_ok a); cbn [negb]; run_on;
    [destruct (manager_throws a); run_on|];
    unfold ret; cbv beta iota.
  all: try (eexists _, _, _; split; [reflexivity|];
            split; [reflexivity|]; split; [reflexivity|];
            split; [discriminate|discriminate]).
  all: lazymatch goal with
    | |- context [bind (initializeControllers ?hw ?names) _ ?r2] =>
        destruct (initializeControllers_total hw names Hnames r2)
          as (ok & r3 & t3 & E3);
        assert (Hkeep : preserves (λ x, is_connected_ x = true ∧ stiffness_ x = 1%float)
                          (initializeControllers hw names))
          by (apply initializeControllers_keeps; intros v x Hx; exact Hx);
        pose proof (Hkeep r2 ok r3 t3 (conj eq_refl eq_refl) E3) as Hsame;
        assert (Hok : hw = None -> ok = true)
          by (intros Hnone; rewrite Hnone, initializeControllers_Done in E3 by exact Hnames;
              now injection E3);
        run_with E3
    end;
    destruct Hsame as [Hon Hone]; destruct ok; cbn [negb]; run_on; unfold ret; cbv beta iota;
    eexists _, _, _; (split; [reflexivity|]);
    unfold isConnected, bind, this; cbv beta iota; rewrite Hon, Hone;
    (split; [reflexivity|]); (split; [reflexivity|]);
    (split; [intros; repeat split; congruence|intros _ _ _ Hnone; now apply Hok]).
Qed.

Lemma connect_outcome_witness :
  ∃ r' t,
    connect rejecting_answers Robot_new = Done false r' t
    ∧ isConnected r' = Done true r' []
    ∧ stiffness_ r' = 1%float.
Proof.
  destruct (connect_outcome rejecting_answers Robot_new)
    as (b & r' & t & E & Hflag & Hone & Htrue & _); [reflexivity|simpl; lia|].
  exists r', t. split; [|split; [exact Hflag|exact Hone]].
  destruct b; [|exact E]. destruct (Htrue eq_refl) as (_ & Hok & _). discriminate Hok.
Defined.

(** When nothing fails, [connect] leaves the buffers with one slot per
    controlled joint and the joint-state message with one position per
    name of the body. *)
Lemma connect_Done_shaped a r :
  nhPtr_ r = true -> jnt_pos_interface_ r = ∅ ->
  (Z.of_nat (length (body_names_from_group a)) < 2 ^ 31)%Z ->
  robot_is_wake_up a = true -> stiffness_interpolation_ok a = true ->
  manager_throws a = false -> hw_fail a = None ->
  ∃ r' t,
    connect a r = Done true r' t
    ∧ connected r'
    ∧ stiffness_ r' = 1%float
    ∧ shaped
        (length (filter (λ joint, is_mimic (body_type_ r') joint = false)
                   (body_names_from_group a)))
        (length (body_names a)) r'.
Proof.
  intros Hnh Hpos Hsmall Hawake Hstiff Hman Hhw. unfold connect.
  run_with (assign_run (set_is_connected_ false) r).
  destruct (loadParams_total (params a) (set_is_connected_ false r)) as ([] & r1 & t1 & E1).
  destruct (loadParams_frame (params a) (set_is_connected_ false r) _ _ _
              (conj Hnh Hpos) E1) as [Hnh1 Hpos1].
  run_with E1. run_with (this_run r1).
  rewrite Hawake, Hstiff, Hman, Hhw, ignoreMimicJoints_Some. cbn [negb].
  set (joints_names := filter _ (body_names_from_group a)).
  assert (Hnames : (Z.of_nat (length joints_names) < 2 ^ 31)%Z).
  { pose proof (length_filter (λ joint, is_mimic (body_type_ r1) joint = false)
                 (body_names_from_group a)). subst joints_names. lia. }
  destruct (use_dcm_ r1) eqn:Hdcm; cbn [when negb]; run_on;
    (destruct (bool_decide (length _ = 1)); [destruct (bool_decide (_ !! 0 = _))|]);
    cbn [when]; run_on;
    lazymatch goal with
    | |- context [bind subscribe _ ?r2] =>
        destruct (subscribe_Done r2 Hnh1) as (ts & Es); run_with Es
    end;
    lazymatch goal with
    | |- context [bind (setStiffness true 1) _ ?r2] =>
        rewrite (bind_Done _ _ _ _ _ _ (setStiffness_Done true 1 r2 eq_refl))
    end; cbn [negb]; run_on;
    lazymatch goal with
    | |- context [bind (initializeControllers None joints_names) _ ?r2] =>
        rewrite (bind_Done _ _ _ _ _ _ (initializeControllers_Done joints_names r2 Hnames))
    end; cbn [negb]; run_on; unfold ret; cbv beta iota;
    (eexists _, _; split; [reflexivity|split; [reflexivity|split; [reflexivity|]]]).
  all: unfold shaped, ready, write_path_ready, handles_in_range, initialized;
    cbn [memory_ motion_ diagnostics_ manager_ use_dcm_ dcm_ joint_angles_ joint_commands_
         jnt_pos_interface_ body_type_ joint_states_topic_ sensor_msgs.position
         set_jnt_pos_interface_ set_jnt_state_interface_
         set_joint_commands_ set_joint_efforts_ set_joint_velocities_ set_joint_angles_
         set_manager_ set_stiffness_ set_is_connected_ set_diagnostics_
         set_joint_states_topic_ set_motion_ set_memory_ set_dcm_];
    fold joints_names;
    rewrite ?Hdcm, !resize_length, Hpos1;
    (split; [|split; reflexivity]); repeat (split; [reflexivity|]);
    (apply registered_in_range; [simpl; lia|apply map_Forall_empty]).
Qed.

(** X16. From the connection to the loop: when the robot is awake and
    nothing fails, [connect] on an object whose interfaces are still empty
    returns [true] and leaves the object connected, with stiffness 1, one
    slot per controlled joint in the buffers and one position per body name
    in the joint-state message; and [run] on that object never faults, over
    any cycles whose answers have those sizes. *)
Theorem connect_then_run (a : ConnectAnswers) (cycles : list Cycle) (r : Robot) :
  nhPtr_ r = true -> jnt_pos_interface_ r = ∅ ->
  (Z.of_nat (length (body_names_from_group a)) < 2 ^ 31)%Z ->
  robot_is_wake_up a = true -> stiffness_interpolation_ok a = true ->
  manager_throws a = false -> hw_fail a = None ->
  ∃ r1 t1,
    connect a r = Done true r1 t1
    ∧ is_connected_ r1 = true
    ∧ stiffness_ r1 = 1%float
    ∧ ready r1
    ∧ (∃ joints_names,
         ignoreMimicJoints (body_type_ r1) (body_names_from_group a) = Some joints_names
         ∧ length (joint_commands_ r1) = length joints_names)
    ∧ length (sensor_msgs.position (joint_states_topic_ r1)) = length (body_names a)
    ∧ (Forall (cycle_fits (length (joint_commands_ r1)) (length (body_names a))) cycles ->
       ∃ e r2 t2, run cycles r1 = Done e r2 t2 ∧ ready r2).
Proof.
  intros Hnh Hpos Hsmall Hawake Hstiff Hman Hhw.
  destruct (connect_Done_shaped a r Hnh Hpos Hsmall Hawake Hstiff Hman Hhw)
    as (r1 & t1 & E & Hon & Hone & Hshaped).
  exists r1, t1. split; [exact E|]. split; [exact Hon|]. split; [exact Hone|].
  pose proof Hshaped as (Hready & Hn & Hm).
  split; [exact Hready|].
  split; [eexists; split; [apply ignoreMimicJoints_Some|exact Hn]|].
  split; [exact Hm|].
  intros Hfit. rewrite Hn in Hfit.
  destruct (controllerLoop_safe _ _ cycles Hfit r1 Hshaped) as (e & r2 & t2 & E2 & Hready2 & _).
  now exists e, r2, t2.
Qed.

Lemma connect_then_run_witness :
  ∃ r1 t1,
    connect sample_answers Robot_new = Done true r1 t1
    ∧ is_connected_ r1 = true
    ∧ ready r1
    ∧ ∃ e r2 t2, run [quiet_cycle; failing_cycle] r1 = Done e r2 t2 ∧ ready r2.
Proof.
  destruct (connect_then_run sample_answers [quiet_cycle; failing_cycle] Robot_new)
    as (r1 & t1 & E & Hon & _ & Hready & _ & _ & Hrun);
    try reflexivity.
  exists r1, t1. split; [exact E|]. split; [exact Hon|]. split; [exact Hready|].
  apply Hrun.
  assert (E' : connect sample_answers Robot_new
               = Done true sample_robot (trace (connect sample_answers Robot_new)))
    by (vm_compute; reflexivity).
  rewrite E' in E. injection E as <- _.
  repeat constructor; vm_compute; lia.
Defined.

(** ** The calls of a run *)

Section Emits.
Context (I : Robot -> Prop) (P : Event -> Prop).

Lemma emits_ret {A} (a : A) : emits I P (ret a).
Proof. intros r HI. split; [exact HI|constructor]. Qed.

Lemma emits_this : emits I P this.
Proof. intros r HI. split; [exact HI|constructor]. Qed.

Lemma emits_fault {A} f : emits I P (@fault A f).
Proof. intros r HI. split; [exact HI|constructor]. Qed.

Lemma emits_call e : P e -> emits I P (call e).
Proof. intros He r HI. split; [exact HI|]. repeat constructor. exact He. Qed.

Lemma emits_via p e : P e -> emits I P (via p e).
Proof.
  intros He r HI. unfold via. destruct (p r); (split; [exact HI|]); repeat constructor.
  exact He.
Qed.

Lemma emits_assign f : (∀ r, I r -> I (f r)) -> emits I P (assign f).
Proof. intros Hf r HI. split; [apply Hf, HI|constructor]. Qed.

Lemma emits_bind {A B} (m : M A) (k : A -> M B) :
  emits I P m -> (∀ a, emits I P (k a)) -> emits I P (bind m k).
Proof.
  intros Hm Hk r HI. destruct (Hm r HI) as [HI1 Ht1]. unfold bind.
  destruct (m r) as [a r1 t1|f r1 t1]; [|now split].
  destruct (Hk a r1 HI1) as [HI2 Ht2].
  destruct (k a r1) as [b r2 t2|f r2 t2]; (split; [exact HI2|]);
    apply Forall_app; now split.
Qed.

Lemma emits_when b m : emits I P m -> emits I P (when b m).
Proof. intros Hm. destruct b; [exact Hm|apply emits_ret]. Qed.

Lemma emits_getParam {T} (v : option T) set :
  (∀ x r, I r -> I (set x r)) -> emits I P (getParam v set).
Proof. intros Hs. destruct v; [apply emits_assign; intros r; apply Hs|apply emits_ret]. Qed.
End Emits.

(** The steps of a proof of [emits] that follow the shape of the method. *)
Ltac emit_step :=
  match goal with
  | |- emits _ _ (bind _ _) => apply emits_bind; [|intros ?]
  | |- emits _ _ (ret _) => apply emits_ret
  | |- emits _ _ this => apply emits_this
  | |- emits _ _ (fault _) => apply emits_fault
  | |- emits _ _ (call _) => apply emits_call; reflexivity
  | |- emits _ _ (via _ _) => apply emits_via; reflexivity
  | |- emits _ _ (when _ _) => apply emits_when
  | |- emits _ _ (getParam _ _) => apply emits_getParam; intros ? ? ?; assumption
  | |- emits _ _ (assign _) => apply emits_assign; intros ? ?; assumption
  | |- emits _ _ (if ?b then _ else _) => destruct b
  | |- emits _ _ (match ?o with Some _ => _ | None => _ end) => destruct o
  end.

Section Path.
Variable dcm : bool.

Lemma stopService_on_path ok : emits (fixed dcm) (selected dcm) (stopService ok).
Proof.
  intros r Hr. rewrite stopService_Done. split.
  - unfold stopped. cbn [final]. destruct (motion_ r); exact Hr.
  - cbn [trace]. unfold stop_calls.
    destruct (motion_ r), (use_dcm_ r), (bool_decide (motor_groups_ r = ["Body"])),
      (nhPtr_ r); repeat constructor.
Qed.

Lemma readJoints_on_path values : emits (fixed dcm) (selected dcm) (readJoints values).
Proof.
  unfold readJoints.
  apply emits_bind; [apply emits_via; reflexivity|intros ?].
  apply emits_bind; [apply emits_this|intros r0].
  generalize (length (joint_commands_ r0)) 0. clear.
  intros n. induction n as [|n IH]; intros i; cbn [readJoints_loop].
  - apply emits_ret.
  - destruct (values !! i); [|apply emits_fault].
    apply emits_bind; [apply emits_this|intros r1].
    destruct (bool_decide _); [|apply emits_fault].
    do 2 (apply emits_bind; [apply emits_assign; intros r Hr; exact Hr|intros ?]).
    apply IH.
Qed.

Lemma write_commands_on_path writes : emits (fixed dcm) (selected dcm) (write_commands writes).
Proof.
  induction writes as [|[joint value] writes IH]; cbn [write_commands].
  - apply emits_ret.
  - apply emits_bind; [|intros ?; apply IH].
    unfold write_command. apply emits_bind; [apply emits_this|intros r1].
    destruct (jnt_pos_interface_ r1 !! joint); [|apply emits_ret].
    destruct (bool_decide _); [|apply emits_fault].
    apply emits_assign. intros r Hr. exact Hr.
Qed.

(** The one place where a path is chosen: by the flag, at each write. *)
Lemma writeJoints_on_path : emits (fixed dcm) (selected dcm) writeJoints.
Proof.
  intros r Hr. unfold writeJoints, bind, this. cbv beta iota.
  destruct (detect_change _ _ _) as [[|]|]; cbn [negb]; try (split; [exact Hr|constructor]).
  unfold fixed in Hr. unfold via. rewrite Hr.
  destruct dcm; [destruct (dcm_ r)|destruct (motion_ r)];
    (split; [exact Hr|]); repeat constructor.
Qed.

Lemma publishJointStateFromAlMotion_on_path values :
  emits (fixed dcm) (selected dcm) (publishJointStateFromAlMotion values).
Proof.
  unfold publishJointStateFromAlMotion.
  apply emits_bind; [apply emits_via; reflexivity|intros ?].
  apply emits_bind; [|intros ?; repeat emit_step].
  generalize 0. induction values as [|value values IH]; intros i; cbn [copy_positions].
  - apply emits_ret.
  - apply emits_bind; [apply emits_this|intros r1].
    destruct (bool_decide _); [|apply emits_fault].
    apply emits_bind; [apply emits_assign; intros r Hr; exact Hr|intros ?].
    apply IH.
Qed.

Lemma controllerLoop_on_path cycles : emits (fixed dcm) (selected dcm) (controllerLoop cycles).
Proof.
  induction cycles as [|c cycles IH]; cbn [controllerLoop].
  - apply emits_ret.
  - destruct (negb (ros_ok c)); [repeat emit_step|].
    apply emits_bind; [apply emits_this|intros r0].
    destruct (negb (is_connected_ r0)); [repeat emit_step|].
    apply emits_bind; [apply emits_call; reflexivity|intros ?].
    apply emits_bind; [apply readJoints_on_path|intros ?].
    apply emits_bind; [apply emits_via; reflexivity|intros ?].
    apply emits_bind; [apply emits_when, stopService_on_path|intros ?].
    apply emits_bind; [apply emits_via; reflexivity|intros ?].
    destruct (update c); [repeat emit_step|].
    apply emits_bind; [apply write_commands_on_path|intros ?].
    apply emits_bind; [apply writeJoints_on_path|intros ?].
    apply emits_bind; [apply publishJointStateFromAlMotion_on_path|intros ?].
    apply emits_bind; [apply emits_call; reflexivity|intros ?].
    apply IH.
Qed.
End Path.

(** X17. The loop never switches the path.  Over any cycles and from any
    object, whether the run completes or faults, [run] leaves the low-level
    flag as it found it, and every write of the commands it makes goes to
    the DCM wrapper when the flag is set and to the motion wrapper when it
    is not. *)
Theorem run_keeps_path (cycles : list Cycle) (r : Robot) :
  use_dcm_ (final (run cycles r)) = use_dcm_ r
  ∧ Forall (λ e, on_path (use_dcm_ r) e = true) (trace (run cycles r))
  ∧ (∀ commands,
       (use_dcm_ r = true -> MotionWriteJoints commands ∉ trace (run cycles r))
       ∧ (use_dcm_ r = false -> DcmWriteJoints commands ∉ trace (run cycles r))).
Proof.
  destruct (controllerLoop_on_path (use_dcm_ r) cycles r eq_refl) as [Hflag Hcalls].
  split; [exact Hflag|]. split; [exact Hcalls|].
  unfold run. rewrite Forall_forall in Hcalls.
  intros commands. split; intros Hdcm Hin; apply Hcalls in Hin; rewrite Hdcm in Hin;
    discriminate.
Qed.

(** ** [connect] on a robot that is not awake *)

Lemma stop_calls_shutdown r : nhPtr_ r = true -> RosShutdown ∈ stop_calls r.
Proof.
  intros Hnh. unfold stop_calls. rewrite Hnh, !elem_of_app. right. right.
  rewrite !elem_of_cons. auto.
Qed.

Lemma stop_calls_wire_nothing r : Forall (λ e, wires e = false) (stop_calls r).
Proof.
  unfold stop_calls.
  destruct (motion_ r), (use_dcm_ r), (bool_decide (motor_groups_ r = ["Body"])),
    (nhPtr_ r); repeat constructor.
Qed.

Lemma loadParams_wires_nothing p :
  emits (λ _, True) (λ e, wires e = false) (loadParams p).
Proof. unfold loadParams. repeat emit_step. Qed.

(** X18. When the robot is not awake, [connect] gives up before it wires
    anything: it logs the error, calls [stopService], and returns [false]
    with the connected flag down and the stiffness at 0.  No topic was
    advertised or subscribed, no handle registered and no controller
    manager built; but [stopService] has shut the ROS node down. *)
Theorem connect_asleep_shuts_down (a : ConnectAnswers) (r : Robot) :
  nhPtr_ r = true -> robot_is_wake_up a = false ->
  ∃ r' t,
    connect a r = Done false r' t
    ∧ is_connected_ r' = false
    ∧ stiffness_ r' = 0%float
    ∧ manager_ r' = manager_ r
    ∧ jnt_pos_interface_ r' = jnt_pos_interface_ r
    ∧ RosError "Please, wakeUp the robot to be able to set stiffness" ∈ t
    ∧ RosShutdown ∈ t
    ∧ Forall (λ e, wires e = false) t.
Proof.
  intros Hnh Hasleep. unfold connect.
  run_with (assign_run (set_is_connected_ false) r).
  destruct (loadParams_total (params a) (set_is_connected_ false r)) as ([] & r1 & t1 & E1).
  assert (Hsame : nhPtr_ r1 = true ∧ manager_ r1 = manager_ r
                  ∧ jnt_pos_interface_ r1 = jnt_pos_interface_ r).
  { assert (Hkeep : preserves (λ x, nhPtr_ x = true ∧ manager_ x = manager_ r
                                     ∧ jnt_pos_interface_ x = jnt_pos_interface_ r)
                      (loadParams (params a)))
      by (unfold loadParams; keep_all).
    apply (Hkeep (set_is_connected_ false r) tt r1 t1); [|exact E1]. now repeat split. }
  destruct Hsame as (Hnh1 & Hman1 & Hpos1).
  assert (Ht1 : Forall (λ e, wires e = false) t1).
  { destruct (loadParams_wires_nothing (params a) (set_is_connected_ false r) Logic.I)
      as [_ Ht]. now rewrite E1 in Ht. }
  run_with E1. run_with (this_run r1). rewrite Hasleep. cbn [negb].
  destruct (use_dcm_ r1) eqn:Hdcm; cbn [when negb]; run_on;
    (destruct (bool_decide (length _ = 1)); [destruct (bool_decide (_ !! 0 = _))|]);
    cbn [when]; run_on;
    rewrite (bind_Done _ _ _ _ _ _ (stopService_Done _ _)); run_on;
    unfold ret; cbv beta iota;
    rewrite stopped_with_motion by reflexivity;
    (eexists _, _; split; [reflexivity|]);
    (split; [reflexivity|]); (split; [reflexivity|]);
    (split; [exact Hman1|]); (split; [exact Hpos1|]);
    rewrite ?app_nil_r.
  all: split; [|split].
  all: try (rewrite ?elem_of_app, ?elem_of_cons; auto 20; fail).
  all: try (repeat lazymatch goal with
                   | |- _ ∈ stop_calls _ => fail
                   | |- _ ∈ _ :: _ => apply elem_of_list_further
                   | |- _ ∈ _ ++ _ => apply elem_of_app; right
                   end;
            apply stop_calls_shutdown; exact Hnh1).
  all: rewrite ?Forall_app, ?Forall_cons; repeat split; try reflexivity; try exact Ht1;
    try apply Forall_nil; try exact Logic.I; apply stop_calls_wire_nothing.
Qed.

Lemma connect_asleep_shuts_down_witness :
  ∃ r' t,
    connect asleep_answers Robot_new = Done false r' t
    ∧ is_connected_ r' = false
    ∧ stiffness_ r' = 0%float
    ∧ RosShutdown ∈ t
    ∧ Forall (λ e, wires e = false) t.
Proof.
  destruct (connect_asleep_shuts_down asleep_answers Robot_new eq_refl eq_refl)
    as (r' & t & E & Hoff & Hlimp & _ & _ & _ & Hshut & Hwires).
  exists r', t. split; [exact E|]. split; [exact Hoff|]. split; [exact Hlimp|].
  split; [exact Hshut|exact Hwires].
Defined.

(** ** [run] after a [connect] that failed *)

Lemma via_missing p e r : p r = false -> via p e r = Crash NullDereference r [].
Proof. intros Hp. unfold via. now rewrite Hp. Qed.

Lemma readJoints_no_joint values r :
  memory_ r = true -> joint_commands_ r = [] ->
  readJoints values r = Done tt r [MemoryGetListData].
Proof.
  intros Hmem Hcmd. unfold readJoints, bind, via, this. now rewrite Hmem, Hcmd.
Qed.

(** X19. When the robot is awake but the stiffness request is rejected or
    the controller manager cannot be built, [connect] on a new object
    returns [false] and leaves it connected and without a controller
    manager.  A call of [run] then enters the loop, publishes the
    stiffness, reads the sensors, publishes the diagnostics and calls
    [update] through the manager pointer that was never set. *)
Theorem connect_failure_then_run
    (a : ConnectAnswers) (c : Cycle) (cycles : list Cycle) (r : Robot) :
  nhPtr_ r = true -> manager_ r = false -> joint_commands_ r = [] ->
  robot_is_wake_up a = true ->
  stiffness_interpolation_ok a = false ∨ manager_throws a = true ->
  ros_ok c = true ->
  ∃ r1 t1 r2 t2,
    connect a r = Done false r1 t1
    ∧ is_connected_ r1 = true
    ∧ manager_ r1 = false
    ∧ run (c :: cycles) r1 = Crash NullDereference r2 t2
    ∧ DiagnosticsPublish ∈ t2
    ∧ ManagerUpdate ∉ t2.
Proof.
  intros Hnh Hman Hcmd Hawake Hfails Hros. unfold connect.
  run_with (assign_run (set_is_connected_ false) r).
  destruct (loadParams_total (params a) (set_is_connected_ false r)) as ([] & r1 & t1 & E1).
  assert (Hsame : nhPtr_ r1 = true ∧ manager_ r1 = false ∧ joint_commands_ r1 = []).
  { assert (Hkeep : preserves (λ x, nhPtr_ x = true ∧ manager_ x = false
                                     ∧ joint_commands_ x = [])
                      (loadParams (params a)))
      by (unfold loadParams; keep_all).
    apply (Hkeep (set_is_connected_ false r) tt r1 t1); [|exact E1]. now repeat split. }
  destruct Hsame as (Hnh1 & Hman1 & Hcmd1).
  run_with E1. run_with (this_run r1). rewrite Hawake, ignoreMimicJoints_Some. cbn [negb].
  assert (Hstop : ∀ ok x, manager_ x = false ->
            ∃ x' t, when ok (stopService (stop_ok c)) x = Done tt x' t
                    ∧ manager_ x' = false ∧ ManagerUpdate ∉ t).
  { intros ok x Hx. destruct ok; cbn [when].
    - rewrite stopService_Done. eexists _, _. split; [reflexivity|].
      split; [unfold stopped; destruct (motion_ x); exact Hx|].
      unfold stop_calls.
      destruct (motion_ x), (use_dcm_ x), (bool_decide (motor_groups_ x = ["Body"])),
        (nhPtr_ x); cbn [app]; rewrite ?elem_of_cons, elem_of_nil;
        intros Hin; repeat destruct Hin as [Hin|Hin]; try discriminate; exact Hin.
    - eexists _, _. split; [reflexivity|]. split; [exact Hx|apply not_elem_of_nil]. }
  destruct (use_dcm_ r1) eqn:Hdcm; cbn [when negb]; run_on;
    (destruct (bool_decide (length _ = 1)); [destruct (bool_decide (_ !! 0 = _))|]);
    cbn [when]; run_on;
    lazymatch goal with
    | |- context [bind subscribe _ ?r2] =>
        destruct (subscribe_Done r2 Hnh1) as (ts & Es); run_with Es
    end;
    lazymatch goal with
    | |- context [bind (setStiffness ?ok 1) _ ?r2] =>
        rewrite (bind_Done _ _ _ _ _ _ (setStiffness_Done ok 1 r2 eq_refl))
    end;
    (destruct (stiffness_interpolation_ok a);
       [destruct (manager_throws a); [|destruct Hfails; discriminate]|]);
    cbn [negb]; run_on; unfold ret; cbv beta iota;
    lazymatch goal with
    | |- ∃ _ _ _ _, Done false ?x ?t = _ ∧ _ =>
        exists x, t;
        destruct (Hstop (negb (diagnostics_ok c)) x Hman1)
          as (x' & t' & Estop & Hman' & Hnot);
        exists x', ([PublishStiffness (stiffness_ x); MemoryGetListData; DiagnosticsPublish]
                    ++ t');
        (split; [reflexivity|]); (split; [reflexivity|]); (split; [exact Hman1|]);
        (split; [|split; [rewrite elem_of_app, !elem_of_cons; auto|
                          rewrite elem_of_app, !elem_of_cons, elem_of_nil;
                          intros [[|[|[|]]]|]; try discriminate; contradiction]]);
        unfold run; cbn [controllerLoop]; rewrite Hros; cbn [negb];
        run_with (this_run x);
        cbn [is_connected_ set_manager_ set_stiffness_ set_is_connected_ negb];
        run_with (call_run (PublishStiffness (stiffness_ x)) x);
        run_with (readJoints_no_joint (joint_positions c) x eq_refl Hcmd1);
        run_with (via_run diagnostics_ DiagnosticsPublish x eq_refl);
        run_with Estop;
        rewrite (bind_Crash _ _ _ _ _ _ (via_missing manager_ ManagerUpdate x' Hman'));
        cbn [app]; rewrite ?app_nil_r; reflexivity
    end.
Qed.

Lemma connect_failure_then_run_witness :
  ∃ r1 t1 r2 t2,
    connect rejecting_answers Robot_new = Done false r1 t1
    ∧ is_connected_ r1 = true
    ∧ run [quiet_cycle] r1 = Crash NullDereference r2 t2.
Proof.
  destruct (connect_failure_then_run rejecting_answers quiet_cycle [] Robot_new)
    as (r1 & t1 & r2 & t2 & E & Hon & _ & Erun & _ & _);
    [reflexivity|reflexivity|reflexivity|reflexivity|left; reflexivity|reflexivity|].
  exists r1, t1, r2, t2. split; [exact E|]. split; [exact Hon|exact Erun].
Defined.

(** ** The wrappers of the reachable objects *)

Lemma triple_this_is P : triple P this (λ a x, a = x ∧ P x).
Proof. intros r a r' t HP E. inversion E; subst. now split. Qed.

Lemma triple_pre {A} (P P' : Robot -> Prop) (m : M A) Q :
  (∀ r, P' r -> P r) -> triple P m Q -> triple P' m Q.
Proof. intros HP Hm r a r' t HP' E. exact (Hm r a r' t (HP r HP') E). Qed.

Lemma stopService_keeps_wired ok : preserves wired (stopService ok).
Proof.
  intros r a r' t (Hm & Hc & He) E. rewrite stopService_Done in E. inversion E; subst.
  unfold stopped, wired. destruct (motion_ r) eqn:Hmot; cbn; rewrite ?Hmot;
    (split; [exact Hm|split; [discriminate|exact He]]).
Qed.

Lemma wired_insert_commands i value r :
  wired r -> wired (set_joint_commands_ (<[i := value]> (joint_commands_ r)) r).
Proof.
  intros (Hm & Hc & He). split; [exact Hm|]. split; [exact Hc|].
  intros Hmot. cbn. cbn in Hmot. now rewrite (He Hmot).
Qed.

Lemma readJoints_keeps_wired values : preserves wired (readJoints values).
Proof.
  unfold readJoints, preserves.
  eapply triple_bind; [apply triple_via|intros ?].
  eapply triple_bind; [apply triple_this|intros r0].
  generalize (length (joint_commands_ r0)) 0. clear.
  intros n. induction n as [|n IH]; intros i; cbn [readJoints_loop].
  - apply triple_ret.
  - destruct (values !! i); [|apply triple_fault].
    eapply triple_bind; [apply triple_this|intros r1].
    destruct (bool_decide _); [|apply triple_fault].
    eapply triple_bind; [apply preserves_assign; intros r Hr; exact Hr|intros ?].
    eapply triple_bind;
      [apply preserves_assign; intros r Hr; now apply wired_insert_commands|intros ?].
    apply IH.
Qed.

Lemma write_commands_keeps_wired writes : preserves wired (write_commands writes).
Proof.
  induction writes as [|[joint value] writes IH]; cbn [write_commands].
  - apply triple_ret.
  - eapply triple_bind; [|intros ?; apply IH].
    intros r a r' t Hr E.
    unfold write_command, bind, this, assign, ret, fault in E. cbv beta iota in E.
    destruct (jnt_pos_interface_ r !! joint); [destruct (bool_decide _)|];
      inversion E; subst; try exact Hr.
    now apply wired_insert_commands.
Qed.

Lemma publishJointStateFromAlMotion_keeps_wired values :
  preserves wired (publishJointStateFromAlMotion values).
Proof.
  unfold publishJointStateFromAlMotion, preserves.
  eapply triple_bind; [apply triple_via|intros ?].
  eapply triple_bind; [|intros ?; keep_all].
  generalize 0. induction values as [|value values IH]; intros i; cbn [copy_positions].
  - apply triple_ret.
  - eapply triple_bind; [apply triple_this|intros r1].
    destruct (bool_decide _); [|apply triple_fault].
    eapply triple_bind; [apply preserves_assign; intros r Hr; exact Hr|intros ?].
    apply IH.
Qed.

Lemma controllerLoop_keeps_wired cycles : preserves wired (controllerLoop cycles).
Proof.
  induction cycles as [|c cycles IH]; cbn [controllerLoop].
  - apply triple_ret.
  - destruct (negb (ros_ok c)); [keep_all|].
    eapply triple_bind; [apply triple_this|intros r0].
    destruct (negb (is_connected_ r0)); [keep_all|].
    eapply triple_bind; [apply triple_call|intros ?].
    eapply triple_bind; [apply readJoints_keeps_wired|intros ?].
    eapply triple_bind; [apply triple_via|intros ?].
    eapply triple_bind; [apply preserves_when, stopService_keeps_wired|intros ?].
    eapply triple_bind; [apply triple_via|intros ?].
    destruct (update c); [keep_all|].
    eapply triple_bind; [apply write_commands_keeps_wired|intros ?].
    eapply triple_bind; [unfold writeJoints; keep_all|intros ?].
    eapply triple_bind; [apply publishJointStateFromAlMotion_keeps_wired|intros ?].
    eapply triple_bind; [apply triple_call|intros ?].
    apply IH.
Qed.

(** [connect] creates the wrappers before it raises the flag, and the
    wrapper of the low-level path right after it has read the flag. *)
Lemma connect_keeps_wired a : preserves wired (connect a).
Proof.
  unfold connect, preserves.
  set (fresh := λ x : Robot,
    (motion_ x = true -> memory_ x = true) ∧ (motion_ x = false -> joint_commands_ x = [])).
  eapply triple_bind;
    [apply (triple_assign _ _ fresh); intros r (Hm & _ & He);
       split; [intros Hmot; apply Hm, Hmot|exact He]|intros ?].
  eapply triple_bind; [unfold loadParams; keep_all|intros ?].
  eapply triple_bind; [apply triple_this_is|intros r1]. cbv beta.
  set (chosen := λ x : Robot, use_dcm_ x = use_dcm_ r1 ∧ (use_dcm_ r1 = true -> dcm_ x = true)).
  eapply triple_bind with (Q := λ _ x, chosen x ∧ fresh x).
  { intros x u x' t [Heq Hx] E. subst x chosen. cbv beta.
    destruct (use_dcm_ r1) eqn:Hdcm; inversion E; subst.
    - split; [split; [exact Hdcm|reflexivity]|exact Hx].
    - split; [split; [exact Hdcm|discriminate]|exact Hx]. }
  intros ?.
  set (made := λ x : Robot, chosen x ∧ memory_ x = true ∧ motion_ x = true).
  assert (Hmade : ∀ x, made x -> is_connected_ x = true -> diagnostics_ x = true -> wired x).
  { intros x ([Hdcm Hpath] & Hmem & Hmot) _ Hdiag. unfold wired, write_path_ready.
    rewrite Hdcm, Hmem, Hmot. repeat split; try discriminate; try assumption.
    destruct (use_dcm_ r1); [now apply Hpath|reflexivity]. }
  assert (Hoff : ∀ x, made x -> is_connected_ x = false -> wired x).
  { intros x ([Hdcm Hpath] & Hmem & Hmot) Hdown. unfold wired, write_path_ready.
    rewrite Hdcm, Hmem, Hmot, Hdown. repeat split; try discriminate.
    destruct (use_dcm_ r1); [now apply Hpath|reflexivity]. }
  eapply triple_bind with (Q := λ _ x, chosen x ∧ memory_ x = true);
    [apply triple_assign; intros x [Hx _]; split; [exact Hx|reflexivity]|intros ?].
  eapply triple_bind; [apply triple_via|intros ?].
  eapply triple_bind with (Q := λ _, made);
    [apply triple_assign; intros x [Hx Hmem];
       split; [exact Hx|split; [exact Hmem|reflexivity]]|intros ?].
  eapply triple_bind; [destruct (bool_decide _); keep_all|intros ?].
  eapply triple_bind; [apply triple_via|intros ?].
  destruct (negb _).
  - eapply triple_bind; [apply triple_call|intros ?].
    eapply triple_bind with (Q := λ _ x, made x ∧ is_connected_ x = false).
    { intros x u x' t Hx E. rewrite stopService_Done in E. inversion E; subst.
      pose proof Hx as (Hch & Hmem & Hmot). unfold stopped. rewrite Hmot.
      split; [exact Hx|reflexivity]. }
    intros ? x u x' t [Hx Hdown] E. inversion E; subst. now apply Hoff.
  - eapply triple_bind; [keep_all|intros ?].
    eapply triple_bind; [keep_all|intros ?].
    destruct (ignoreMimicJoints _ _); [|apply triple_fault].
    do 5 (eapply triple_bind; [keep_all|intros ?]).
    eapply triple_bind; [apply preserves_assign; intros r Hr; exact Hr|intros ?].
    eapply triple_bind; [keep_all|intros ?].
    set (up := λ x : Robot, made x ∧ is_connected_ x = true ∧ diagnostics_ x = true).
    eapply triple_bind with (Q := λ _ x, made x ∧ diagnostics_ x = true);
      [apply triple_assign; intros x Hx; split; [exact Hx|reflexivity]|intros ?].
    eapply triple_bind with (Q := λ _, up);
      [apply triple_assign; intros x [Hx Hd]; split; [exact Hx|split; [reflexivity|exact Hd]]
      |intros ?].
    eapply triple_post with (Q := λ _, up);
      [|intros _ x (Hx & Hon & Hd); now apply Hmade].
    eapply triple_bind; [apply subscribe_keeps; intros v r Hr; exact Hr|intros ?].
    eapply triple_bind; [unfold setStiffness; keep_all|intros ok].
    destruct (negb ok); [apply triple_ret|].
    destruct (manager_throws a); [keep_all|].
    eapply triple_bind; [apply preserves_assign; intros r Hr; exact Hr|intros ?].
    eapply triple_bind;
      [apply initializeControllers_keeps; intros v r Hr; exact Hr|intros ok'].
    destruct (negb ok'); keep_all.
Qed.

Lemma reachable_wired r : reachable r -> wired r.
Proof.
  induction 1 as [|a r b r' t _ IH E|ok r r' t _ IH E|cycles r e r' t _ IH E
                  |msg r r' t _ IH E].
  - repeat split; discriminate.
  - exact (connect_keeps_wired a r b r' t IH E).
  - exact (stopService_keeps_wired ok r tt r' t IH E).
  - exact (controllerLoop_keeps_wired cycles r e r' t IH E).
  - assert (Hkeep : preserves wired (commandVelocity msg))
      by (unfold commandVelocity; keep_all).
    exact (Hkeep r tt r' t IH E).
Qed.

(** X20. On every object a program can reach, the wrappers are there when
    the flag says so: a connected object has its memory, motion and
    diagnostics wrappers and the wrapper of the selected write path.  So
    [writeJoints] faults on no reachable object, and [commandVelocity]
    faults on no reachable object that is connected. *)
Theorem reachable_wrappers (r : Robot) :
  reachable r ->
  (is_connected_ r = true ->
   memory_ r = true ∧ motion_ r = true ∧ diagnostics_ r = true
   ∧ write_path_ready r = true)
  ∧ (∃ t, writeJoints r = Done tt r t)
  ∧ (is_connected_ r = true -> ∀ msg, ∃ t, commandVelocity msg r = Done tt r t).
Proof.
  intros Hr. pose proof (reachable_wired r Hr) as (Hm & Hc & He).
  pose proof (reachable_well_formed r Hr) as (_ & _ & Ha & _).
  split; [|split].
  - intros Hon. destruct (Hc Hon) as [Hmot Hdiag]. destruct (Hm Hmot) as [Hmem Hpath].
    now repeat split.
  - destruct (motion_ r) eqn:Hmot.
    + destruct (Hm eq_refl) as [_ Hpath].
      destruct (writeJoints_Done r (eq_sym Ha) Hpath) as (changed & _ & E).
      eexists. exact E.
    + exists []. unfold writeJoints, bind, this. cbv beta iota.
      now rewrite (He eq_refl).
  - intros Hon msg. destruct (Hc Hon) as [Hmot _].
    unfold commandVelocity. run_with (this_run r).
    destruct (use_dcm_ r); cbn [when]; run_on;
      rewrite (via_run motion_ _ r Hmot) || idtac; eexists; reflexivity.
Qed.

Lemma reachable_wrappers_witness :
  (is_connected_ sample_robot = true ->
   memory_ sample_robot = true ∧ motion_ sample_robot = true
   ∧ diagnostics_ sample_robot = true ∧ write_path_ready sample_robot = true)
  ∧ (∃ t, writeJoints sample_robot = Done tt sample_robot t)
  ∧ (is_connected_ sample_robot = true ->
     ∀ msg, ∃ t, commandVelocity msg sample_robot = Done tt sample_robot t).
Proof. exact (reachable_wrappers sample_robot sample_robot_reachable). Defined.
